(** * aiorm: an async, retrying, rate limited HTTP request manager

    A shallow embedding of [aiorm/__init__.py] and the properties of its
    retry-after parser, its token bucket, its penalty box and its retry
    loop.

    Conventions of the embedding.
    - A Python [int] is a [Z]; a finite Python [float] (the readings of
      [time.monotonic()], the rate limit) is the rational [Q] it denotes.
      The two float results that the code stores or truncates, the
      deadline [time.monotonic() + retry_after_secs] and the product
      [rate_limit * (now - last_check_end)], are rounded to binary64 by
      [round64], and the conversion of an [int] to [float] raises
      [OverflowError] as [PyLong_AsDouble] does.  The interval of
      [_sleep_duration] and the elapsed time of [close] are kept as the
      exact quotient and difference: the model decides nothing by them but
      whether they are zero.  Infinities and NaN are not values of the
      model: a rate limit is a finite number.
    - A Python [str] is the [string] of its UTF-8 bytes.
    - A call either returns, raises, or (a coroutine) is never resumed:
      [outcome].
    - [asyncio] runs coroutines cooperatively on one thread: the code
      between two suspension points is atomic.  A coroutine is therefore
      modelled by the functions that run it from one suspension point to the
      next.
    - Log output is not part of the state; an exception raised while a log
      argument is evaluated is. *)

From Stdlib Require Import ZArith QArith Qabs Qpower Qround Qminmax List String
  Ascii Bool Lia Lqa.
From stdpp Require Import base option list gmap.

Open Scope Z_scope.

(** ** Python values, exceptions and builtins *)

Module Py.

(** The exception classes the module defines or can meet.  A subclass
    instance is represented by the constructor of the class the code
    tests for: [ClientResponseError] stands for
    [aiohttp.ClientResponseError] and its subclasses, all of which carry
    [.status]. *)
Inductive exn : Type :=
| NameError (name : string)
| AttributeError (attr : string)
| TypeError
| ValueError
| JSONDecodeError
| ZeroDivisionError
| QueueFull
| CancelledError
| TimeoutError
| ClientConnectionError
| ClientResponseError (status : Z)
| RetriesExceededError
| MaxRequestsExceededError
| OtherError (cls : string).

(** [isinstance(e, Exception)]: [asyncio.CancelledError] derives from
    [BaseException] (Python >= 3.8; setup.py asks for >= 3.9). *)
Definition is_Exception (e : exn) : bool :=
  match e with
  | CancelledError => false
  | _ => true
  end.

(** The objects that flow through the attributes the manager reads. *)
Inductive value : Type :=
| VNone
| VInt (n : Z)
| VStr (s : string)
| VEmptyDict
| VExc (e : exn)
| VPartial (verb : string)
| VOpaque (repr : string).

Inductive outcome (A : Type) : Type :=
| Return (a : A)
| Raise (e : exn)
| Pending.
Arguments Return {A} a.
Arguments Raise {A} e.
Arguments Pending {A}.

Definition bind {A B : Type} (c : outcome A) (k : A -> outcome B) : outcome B :=
  match c with
  | Return a => k a
  | Raise e => Raise e
  | Pending => Pending
  end.

(** Truth value of an object in a condition. *)
Definition truthy (v : value) : bool :=
  match v with
  | VNone => false
  | VInt n => negb (n =? 0)
  | VStr s => negb (String.eqb s "")
  | VEmptyDict => false
  | VExc _ => true
  | VPartial _ => true
  | VOpaque _ => true
  end.

(** [a == b] where [a] is an int. *)
Definition int_eq (a : Z) (b : value) : bool :=
  match b with
  | VInt n => a =? n
  | _ => false
  end.

(** Truth value of a float-or-None attribute. *)
Definition truthy_float (x : option Q) : bool :=
  match x with
  | None => false
  | Some q => negb (Qeq_bool q 0)
  end.

(** [int(x)] for a float [x]: truncation toward zero. *)
Definition int_of_float (x : Q) : Z := Z.quot (Qnum x) (Zpos (Qden x)).

(** *** [int(s)] for a string

    CPython first maps the string to ASCII
    ([_PyUnicode_TransformDecimalAndSpaceToASCII]): a code point below 127
    stays, a Unicode space becomes a blank, a Unicode decimal digit becomes
    the ASCII digit of its value, anything else ends the literal.  Then
    [PyLong_FromString] skips the C whitespace around the literal, allows one
    sign, and reads decimal digits with single underscores between them.  A
    literal of more than [int_max_str_digits] digits is refused with
    [ValueError] like a malformed one.

    The tables are those of CPython 3.11 (Unicode 14.0), the limit is the
    default of [sys.get_int_max_str_digits()].  A string that is no valid
    UTF-8 stands for a [str] with lone surrogates, which [int()] refuses. *)
Definition byte (c : ascii) : Z := Z.of_nat (nat_of_ascii c).

Definition continuation (c : ascii) : option Z :=
  let b := byte c in
  if (128 <=? b) && (b <? 192) then Some (b - 128) else None.

(** A code point in the range its encoding length allows, no surrogate. *)
Definition scalar (low high cp : Z) : option Z :=
  if (low <=? cp) && (cp <=? high) && negb ((55296 <=? cp) && (cp <=? 57343))
  then Some cp else None.

Fixpoint decode_utf8 (s : string) : option (list Z) :=
  match s with
  | EmptyString => Some []
  | String c0 s0 =>
      let b := byte c0 in
      if b <? 128 then option_map (cons b) (decode_utf8 s0)
      else if (192 <=? b) && (b <? 224) then
        match s0 with
        | String c1 s1 =>
            match continuation c1 with
            | Some x1 =>
                match scalar 128 2047 ((b - 192) * 64 + x1), decode_utf8 s1 with
                | Some cp, Some rest => Some (cp :: rest)
                | _, _ => None
                end
            | None => None
            end
        | _ => None
        end
      else if (224 <=? b) && (b <? 240) then
        match s0 with
        | String c1 (String c2 s2) =>
            match continuation c1, continuation c2 with
            | Some x1, Some x2 =>
                match scalar 2048 65535 ((b - 224) * 4096 + x1 * 64 + x2),
                      decode_utf8 s2 with
                | Some cp, Some rest => Some (cp :: rest)
                | _, _ => None
                end
            | _, _ => None
            end
        | _ => None
        end
      else if (240 <=? b) && (b <? 248) then
        match s0 with
        | String c1 (String c2 (String c3 s3)) =>
            match continuation c1, continuation c2, continuation c3 with
            | Some x1, Some x2, Some x3 =>
                match scalar 65536 1114111
                        ((b - 240) * 262144 + x1 * 4096 + x2 * 64 + x3),
                      decode_utf8 s3 with
                | Some cp, Some rest => Some (cp :: rest)
                | _, _ => None
                end
            | _, _, _ => None
            end
        | _ => None
        end
      else None
  end.

(** [Py_UNICODE_ISSPACE] from 127 on. *)
Definition unicode_spaces : list Z :=
  [ 133; 160; 5760; 8192; 8193; 8194; 8195; 8196; 8197; 8198; 8199; 8200;
    8201; 8202; 8232; 8233; 8239; 8287; 12288 ].

(** The digit zero of every block of decimal digits beyond ASCII
    ([Py_UNICODE_TODECIMAL]); the nine other digits follow it. *)
Definition decimal_zeros : list Z :=
  [ 1632; 1776; 1984; 2406; 2534; 2662; 2790; 2918; 3046; 3174; 3302; 3430;
    3558; 3664; 3792; 3872; 4160; 4240; 6112; 6160; 6470; 6608; 6784; 6800;
    6992; 7088; 7232; 7248; 42528; 43216; 43264; 43472; 43504; 43600; 44016;
    65296; 66720; 68912; 69734; 69872; 69942; 70096; 70384; 70736; 70864;
    71248; 71360; 71472; 71904; 72016; 72784; 73040; 73120; 92768; 92864;
    93008; 120782; 120792; 120802; 120812; 120822; 123200; 123632; 125264;
    130032 ].

Definition to_ascii (cp : Z) : option ascii :=
  if cp <? 127 then Some (ascii_of_nat (Z.to_nat cp))
  else if existsb (Z.eqb cp) unicode_spaces then Some " "%char
  else
    match find (fun zero => (zero <=? cp) && (cp <? zero + 10)) decimal_zeros with
    | Some zero => Some (ascii_of_nat (Z.to_nat (48 + (cp - zero))))
    | None => None
    end.

Fixpoint transform (cps : list Z) : option string :=
  match cps with
  | [] => Some EmptyString
  | cp :: rest =>
      match to_ascii cp, transform rest with
      | Some c, Some s => Some (String c s)
      | _, _ => None
      end
  end.

(** [Py_ISSPACE]: the whitespace of the C locale. *)
Definition is_space (c : ascii) : bool :=
  let n := nat_of_ascii c in
  (((9 <=? n) && (n <=? 13)) || (n =? 32))%nat.

Definition digit_of (c : ascii) : option Z :=
  let n := Z.of_nat (nat_of_ascii c) in
  if (48 <=? n) && (n <=? 57) then Some (n - 48) else None.

Fixpoint lstrip (s : string) : string :=
  match s with
  | EmptyString => EmptyString
  | String c s' => if is_space c then lstrip s' else s
  end.

Fixpoint rstrip (s : string) : string :=
  match s with
  | EmptyString => EmptyString
  | String c s' =>
      match rstrip s' with
      | EmptyString => if is_space c then EmptyString else String c EmptyString
      | r => String c r
      end
  end.

Definition int_max_str_digits : Z := 4300.

(** [after_digit] tells whether the previous character was a digit: an
    underscore is accepted only then, and the literal must end on a
    digit.  [count] is the number of digits read. *)
Fixpoint digits (s : string) (acc : Z) (count : Z) (after_digit : bool)
    : option Z :=
  match s with
  | EmptyString =>
      if after_digit && (count <=? int_max_str_digits) then Some acc else None
  | String c s' =>
      match digit_of c with
      | Some d => digits s' (10 * acc + d) (count + 1) true
      | None =>
          if Ascii.eqb c "_" && after_digit then digits s' acc count false
          else None
      end
  end.

Definition int_of_string (s : string) : option Z :=
  let ascii_text :=
    match decode_utf8 s with
    | Some cps => transform cps
    | None => None
    end in
  match option_map (fun t => rstrip (lstrip t)) ascii_text with
  | Some (String "-" r) => option_map Z.opp (digits r 0 0 false)
  | Some (String "+" r) => digits r 0 0 false
  | Some r => digits r 0 0 false
  | None => None
  end.

(** [int(v)]: a string that is no literal raises [ValueError], an object
    that is neither a number nor a string raises [TypeError]. *)
Definition int (v : value) : outcome Z :=
  match v with
  | VInt n => Return n
  | VStr s =>
      match int_of_string s with
      | Some n => Return n
      | None => Raise ValueError
      end
  | _ => Raise TypeError
  end.

(** *** binary64

    A finite float is the rational it denotes; [round64] rounds a rational
    to the nearest binary64, ties to the even significand, with gradual
    underflow.  The exponent is not bounded above: where binary64
    overflows, at [float_max_exceeded], the callers say what Python
    does. *)

(** The [e] with [2^(e-1) <= |x| < 2^e], for [x] other than 0. *)
Definition binade (x : Q) : Z :=
  let n := Z.abs (Qnum x) in
  let d := Zpos (Qden x) in
  let e := Z.log2 n - Z.log2 d in
  if (if 0 <=? e then d * 2 ^ e <=? n else d <=? n * 2 ^ (- e))
  then e + 1 else e.

(** The integer nearest to [a / b], for [b > 0]; a tie goes to the even
    one. *)
Definition round_half_even (a b : Z) : Z :=
  let f := a / b in
  let twice := 2 * (a mod b) in
  if twice <? b then f
  else if b <? twice then f + 1
  else if Z.even f then f else f + 1.

Definition pow2 (e : Z) : Q :=
  if 0 <=? e then inject_Z (2 ^ e) else 1 # Z.to_pos (2 ^ (- e)).

(** The unit in the last place of the binade of [x]: 53 bits of
    significand, and [2^-1074] for the subnormal numbers. *)
Definition ulp_exponent (x : Q) : Z := Z.max (binade x - 53) (-1074).

Definition round64 (x : Q) : Q :=
  if Qeq_bool x 0 then 0%Q
  else
    let e := ulp_exponent x in
    let m := if 0 <=? e
             then round_half_even (Qnum x) (Zpos (Qden x) * 2 ^ e)
             else round_half_even (Qnum x * 2 ^ (- e)) (Zpos (Qden x)) in
    Qred (inject_Z m * pow2 e).

(** From [2^1024 - 2^970] on, rounding to nearest leaves the finite
    floats. *)
Definition float_max_exceeded (x : Q) : bool :=
  Qle_bool (inject_Z (2 ^ 1024 - 2 ^ 970)) (Qabs x).

Definition OverflowError : exn := OtherError "OverflowError".

(** [float(x)] for a number [x] ([PyLong_AsDouble] when [x] is an int): a
    float is left as it is, an int is rounded, or refused with
    [OverflowError], which is [None] here. *)
Definition to_float (x : Q) : option Q :=
  if float_max_exceeded x then None else Some (round64 x).

(** [x + v] for a float [x] that is a reading of the clock: an int is
    converted first.  (For the sum itself to be infinite the clock would
    have to read [2^970] seconds or more.) *)
Definition float_add (x : Q) (v : value) : outcome Q :=
  match v with
  | VInt n =>
      match to_float (inject_Z n) with
      | Some y => Return (round64 (x + y))
      | None => Raise OverflowError
      end
  | _ => Raise TypeError
  end.

(** Looking a global name up in a module namespace. *)
Definition load_name (globals : list string) (name : string) : outcome unit :=
  if existsb (String.eqb name) globals then Return tt else Raise (NameError name).

End Py.

Export Py.

Notation "'let*' x ':=' c 'in' k" := (bind c (fun x => k))
  (at level 10, x name, c at level 100, k at level 200).

(** ** The module [aiorm] *)

(** *** Module namespace

    The names bound at module level once [aiorm/__init__.py] has been
    imported: its imports, [log], the three exception classes,
    [default_retry] and [RequestManager]. *)
Definition module_globals : list string :=
  [ "time"; "json"; "pprint"; "asyncio"; "aiohttp"; "logging"; "functools";
    "log"; "RequestManagerError"; "RetriesExceededError";
    "MaxRequestsExceededError"; "default_retry"; "RequestManager" ]%string.

(** What [dateutil]'s [parser.parse] makes of a string. *)
Inductive parsed : Type :=
| ParsedAware (posix : Q)      (* a datetime with a time zone, as POSIX seconds *)
| ParsedNaive                  (* a datetime without time zone *)
| ParserError.                 (* parser.ParserError raised *)

(** The namespace the functions run in, and what the names [parser],
    [datetime] and [timezone] would denote where bound.  The module binds
    none of the three: [aiorm_environ]. *)
Record environ : Type := {
  globals : list string;
  parser_parse : string -> parsed
}.

Definition aiorm_environ (parse : string -> parsed) : environ :=
  {| globals := module_globals; parser_parse := parse |}.

(** [timedelta.seconds] of a difference of [d] seconds: a timedelta is
    normalised to days, seconds in [0, 86400) and microseconds. *)
Definition timedelta_seconds (d : Q) : Z := Qfloor d mod 86400.

(** *** default_retry (lines 21-35) *)
Definition retry_for_statuses : list Z := [500; 502; 503; 504; 599].

Definition default_retry (exception : exn) : bool :=
  match exception with
  | ClientResponseError status =>
      if existsb (Z.eqb status) retry_for_statuses then true else false
  | _ => false
  end.

(** *** The manager object *)

(** [asyncio.Queue(maxsize)]: the tokens in order of arrival.  A [maxsize]
    of zero or less makes the queue unbounded. *)
Record queue : Type := {
  maxsize : Z;
  items : list Z
}.

Definition qsize (q : queue) : Z := Z.of_nat (length (items q)).

Definition full (q : queue) : bool :=
  if maxsize q <=? 0 then false else maxsize q <=? qsize q.

(** [None]: [QueueFull] is raised. *)
Definition put_nowait (q : queue) (item : Z) : option queue :=
  if full q then None
  else Some {| maxsize := maxsize q; items := items q ++ [item] |}.

(** [aiohttp.ClientSession]: what its [closed] property reads.  It is true
    once the session was closed, and from the start for a session built on
    a connector that is closed already. *)
Record client_session : Type := {
  closed : bool
}.

(** [asyncio.Task] of the rate manager: whether cancellation was asked. *)
Record task : Type := {
  cancel_requested : bool
}.

Definition cancel (t : task) : task := {| cancel_requested := true |}.

(** The attributes [__init__] assigns once and nothing assigns again, and
    the two attributes the methods read that [__init__] never assigns
    ([max_requests], [default_retry_after_delay]: [None] here means unset,
    [Some v] that the caller assigned [v] on the instance). *)
Record config : Type := {
  retries : Z;
  should_retry : exn -> bool;
  rate_limit : option Q;
  rate_limit_burst : Z;
  json_deserialize : string -> outcome value;
  max_requests : option value;
  default_retry_after_delay : option value
}.

(** The attributes that change after construction.  [_token_queue] and
    [_rate_manager_task] exist only when [__init__] found the rate limit
    truthy.  [session_closes] is a ghost counter of the calls of
    [ClientSession.close()].  [connector_closed] is the state of
    [self.connector], the one [TCPConnector] of line 80 that every session
    is built on: the session owns it ([session_kwargs] is taken empty) and
    closes it when it is closed itself. *)
Record state : Type := {
  _requests : Z;
  retry_after_event : bool;
  retry_after_time : option Q;
  _token_queue : option queue;
  _rate_manager_task : option task;
  __session : option client_session;
  session_closes : nat;
  connector_closed : bool;
  _start : Q
}.

Definition set_requests (m : state) (n : Z) : state :=
  {| _requests := n; retry_after_event := retry_after_event m;
     retry_after_time := retry_after_time m; _token_queue := _token_queue m;
     _rate_manager_task := _rate_manager_task m; __session := __session m;
     session_closes := session_closes m;
     connector_closed := connector_closed m; _start := _start m |}.

Definition set_penalty (m : state) (ev : bool) (t : option Q) : state :=
  {| _requests := _requests m; retry_after_event := ev;
     retry_after_time := t; _token_queue := _token_queue m;
     _rate_manager_task := _rate_manager_task m; __session := __session m;
     session_closes := session_closes m;
     connector_closed := connector_closed m; _start := _start m |}.

Definition set_queue (m : state) (q : queue) : state :=
  {| _requests := _requests m; retry_after_event := retry_after_event m;
     retry_after_time := retry_after_time m; _token_queue := Some q;
     _rate_manager_task := _rate_manager_task m; __session := __session m;
     session_closes := session_closes m;
     connector_closed := connector_closed m; _start := _start m |}.

Definition set_task (m : state) (t : task) : state :=
  {| _requests := _requests m; retry_after_event := retry_after_event m;
     retry_after_time := retry_after_time m; _token_queue := _token_queue m;
     _rate_manager_task := Some t; __session := __session m;
     session_closes := session_closes m;
     connector_closed := connector_closed m; _start := _start m |}.

Definition set_session (m : state) (s : option client_session) (n : nat) : state :=
  {| _requests := _requests m; retry_after_event := retry_after_event m;
     retry_after_time := retry_after_time m; _token_queue := _token_queue m;
     _rate_manager_task := _rate_manager_task m; __session := s;
     session_closes := n; connector_closed := connector_closed m;
     _start := _start m |}.

Definition set_connector_closed (m : state) : state :=
  {| _requests := _requests m; retry_after_event := retry_after_event m;
     retry_after_time := retry_after_time m; _token_queue := _token_queue m;
     _rate_manager_task := _rate_manager_task m; __session := __session m;
     session_closes := session_closes m; connector_closed := true;
     _start := _start m |}.

(** Class attributes (lines 61-63). *)
Definition shortcuts : list string :=
  [ "delete"; "get"; "head"; "options"; "patch"; "post"; "put" ]%string.
Definition rate_limit_min_burst_size : Z := 2.
Definition min_sleep : Q := 1 # 10.

(** *** __getattr__ (lines 318-323)

    Called for an attribute that normal lookup does not find.  For a name
    that is no shortcut it RETURNS the [AttributeError] instance: reading
    an unset attribute yields that object instead of raising. *)
Definition __getattr__ (attr : string) : value :=
  if existsb (String.eqb attr) shortcuts then VPartial attr
  else VExc (AttributeError attr).

(** [self.<attr>] for an attribute that the instance may not have. *)
Definition getattr (slot : option value) (attr : string) : value :=
  match slot with
  | Some v => v
  | None => __getattr__ attr
  end.

(** *** __init__ (lines 65-97) *)
Record init_args : Type := {
  arg_should_retry : exn -> bool;
  arg_retries : Z;
  arg_rate_limit : option Q;
  arg_rate_limit_burst : Z;
  arg_json_deserialize : string -> outcome value
}.

Definition init_config (a : init_args) : config :=
  {| retries := arg_retries a;
     should_retry := arg_should_retry a;
     rate_limit := arg_rate_limit a;
     rate_limit_burst := arg_rate_limit_burst a;
     json_deserialize := arg_json_deserialize a;
     max_requests := None;
     default_retry_after_delay := None |}.

Definition __init__ (a : init_args) (now : Q) : config * state :=
  (init_config a,
   {| _requests := 0;
      retry_after_event := true;
      retry_after_time := None;
      _token_queue :=
        if truthy_float (arg_rate_limit a)
        then Some {| maxsize := arg_rate_limit_burst a; items := [] |}
        else None;
      _rate_manager_task :=
        if truthy_float (arg_rate_limit a)
        then Some {| cancel_requested := false |}
        else None;
      __session := None;
      session_closes := 0;
      connector_closed := false;
      _start := now |}).

(** The [session] property (lines 99-112): the session is created on first
    use, on [self.connector]; [ClientSession.closed] reads
    [self._connector is None or self._connector.closed], so that a session
    built on a closed connector is closed from the start. *)
Definition session (m : state) : state :=
  match __session m with
  | Some _ => m
  | None =>
      set_session m (Some {| closed := connector_closed m |}) (session_closes m)
  end.

(** *** close (lines 114-131)

    [now] is the reading of [time.monotonic()]; [self._rate_manager] is a
    bound method, so the test against [None] always passes and
    [self._rate_manager_task] is read: when unset, [__getattr__] returns an
    [AttributeError] instance, which has no [cancel].  Whatever
    [session.close()] raises is swallowed; the call closes the connector
    with the session. *)
Definition close (m : state) (now : Q) : state * outcome unit :=
  let secs := (now - _start m)%Q in
  if Qeq_bool secs 0 then (m, Raise ZeroDivisionError)
  else
    match _rate_manager_task m with
    | None => (m, Raise (AttributeError "cancel"))
    | Some t =>
        let m1 := set_task m (cancel t) in
        let m2 :=
          match __session m1 with
          | Some s =>
              if negb (closed s)
              then set_connector_closed
                     (set_session m1 (Some {| closed := true |})
                        (S (session_closes m1)))
              else m1
          | None => m1
          end in
        (set_session m2 None (session_closes m2), Return tt)
    end.

(** *** _sleep_duration (lines 133-141) *)
Definition _sleep_duration (cfg : config) : outcome (option Q) :=
  match rate_limit cfg with
  | Some r =>
      if Qeq_bool r 0 then Raise ZeroDivisionError
      else Return (Some (Qmax (1 / r) min_sleep))
  | None => Return None
  end.

(** *** _parse_retry_after (lines 296-316)

    [utcnow] is what [datetime.now(timezone.utc)] would read.  The handler
    [except parser.ParserError] has to evaluate the name [parser] as well:
    in a namespace without it the [NameError] of line 309 leaves the
    function. *)
Definition _parse_retry_after (E : environ) (cfg : config) (utcnow : Q)
    (value : value) : outcome Py.value :=
  match int value with
  | Return seconds => Return (VInt seconds)
  | Raise ValueError =>
      match load_name (globals E) "parser" with
      | Raise e => Raise e
      | Pending => Pending
      | Return _ =>
          match value with
          | VStr s =>
              match parser_parse E s with
              | ParsedAware date =>
                  let* _ := load_name (globals E) "datetime" in
                  let* _ := load_name (globals E) "timezone" in
                  Return (VInt (timedelta_seconds (date - utcnow)))
              | ParsedNaive =>
                  let* _ := load_name (globals E) "datetime" in
                  let* _ := load_name (globals E) "timezone" in
                  Raise TypeError
              | ParserError =>
                  Return (getattr (default_retry_after_delay cfg)
                                  "default_retry_after_delay")
              end
          | _ => Raise TypeError
          end
      end
  | Raise e => Raise e
  | Pending => Pending
  end.

(** *** _get_token (lines 209-234)

    The coroutine runs to its first suspension point.  [AtEvent]: the
    penalty event is clear, the caller waits in
    [retry_after_event.wait()].  [AtQueue]: the queue is empty, the caller
    waits in [_token_queue.get()]. *)
Inductive gate : Type :=
| Passed (m : state)
| GateRaises (e : exn)
| AtEvent
| AtQueue.

(** Lines 229-232, entered with the event passed and again whenever a
    waiting getter is woken: [Queue.get] loops on [while self.empty()].
    With the attribute unset [__getattr__] yields an [AttributeError]
    instance, which differs from [None] and has no [get]. *)
Definition take_token (m : state) : gate :=
  match _token_queue m with
  | None => GateRaises (AttributeError "get")
  | Some q =>
      match items q with
      | [] => AtQueue
      | _ :: rest => Passed (set_queue m {| maxsize := maxsize q; items := rest |})
      end
  end.

(** Lines 221-227.  The class raised on the ceiling is spelled
    [MaximumRequestsExceeded] and its message reads [self_requests]. *)
Definition enter_get_token (E : environ) (cfg : config) (m : state) : gate :=
  let ceiling := getattr (max_requests cfg) "max_requests" in
  if truthy ceiling && int_eq (_requests m) ceiling then
    match load_name (globals E) "MaximumRequestsExceeded" with
    | Raise e => GateRaises e
    | _ =>
        match load_name (globals E) "self_requests" with
        | Raise e => GateRaises e
        | _ => GateRaises (OtherError "MaximumRequestsExceeded")
        end
    end
  else if truthy_float (rate_limit cfg) then
    if retry_after_event m then take_token m else AtEvent
  else Passed m.

(** The whole call, as one request coroutine sees it.  When the call
    suspends, [wake] gives the shared state in which the event loop resumes
    it for good, [None] if it never does. *)
Definition _get_token (E : environ) (cfg : config) (m : state)
    (wake : state -> option state) : state * outcome unit :=
  match enter_get_token E cfg m with
  | Passed m' => (m', Return tt)
  | GateRaises e => (m, Raise e)
  | AtEvent | AtQueue =>
      match wake m with
      | None => (m, Pending)
      | Some m1 =>
          match take_token m1 with
          | Passed m2 => (m2, Return tt)
          | GateRaises e => (m1, Raise e)
          | AtEvent | AtQueue => (m1, Pending)
          end
      end
  end.

(** *** request (lines 236-294) *)

(** What the transport delivers: the status, the [Retry-After] header if
    present, and the body text. *)
Record response : Type := {
  status : Z;
  retry_after : option string;
  text : string
}.

(** Lines 267-270: [getattr(self.session, method)], the call and
    [resp.text()] deliver a response, raise, or never complete. *)
Inductive transport : Type :=
| Responds (resp : response)
| Fails (e : exn)
| Hangs.

(** What the event loop and the other coroutines contribute to one
    iteration of the loop: how a suspended [_get_token] is resumed, what
    the others did to the shared state while the transport was awaited,
    what the transport delivered, and the clock readings. *)
Record attempt_env : Type := {
  wake : state -> option state;
  others : state -> state;
  send : transport;
  monotonic : Q;
  utcnow : Q
}.

(** How the [try] block of one iteration ends. *)
Inductive attempt : Type :=
| Returned (resp_json : value)
| Throttled
| Raised (e : exn)
| Stuck.

(** Lines 277-282: the penalty box is armed. *)
Definition throttle (E : environ) (cfg : config) (m : state) (now utc : Q)
    (header : option string) : state * attempt :=
  let retry_after :=
    match header with
    | Some s => VStr s
    | None => getattr (default_retry_after_delay cfg) "default_retry_after_delay"
    end in
  match _parse_retry_after E cfg utc retry_after with
  | Return retry_after_secs =>
      match float_add now retry_after_secs with
      | Return t => (set_penalty m false (Some t), Throttled)
      | Raise e => (m, Raised e)
      | Pending => (m, Stuck)
      end
  | Raise e => (m, Raised e)
  | Pending => (m, Stuck)
  end.

(** Lines 270-285, from the body text on.  [raise_for_status] raises
    [ClientResponseError] for a status of 400 and above. *)
Definition on_response (E : environ) (cfg : config) (m : state) (now utc : Q)
    (resp : response) : state * attempt :=
  let decoded :=
    if String.eqb (text resp) "" then Return VEmptyDict
    else json_deserialize cfg (text resp) in
  match decoded with
  | Return resp_json =>
      if status resp =? 429 then throttle E cfg m now utc (retry_after resp)
      else if 400 <=? status resp
           then (m, Raised (ClientResponseError (status resp)))
           else (m, Returned resp_json)
  | Raise e => (m, Raised e)
  | Pending => (m, Stuck)
  end.

(** Lines 265-285: the [try] block. *)
Definition try_body (E : environ) (cfg : config) (m : state)
    (env : attempt_env) : state * attempt :=
  match _get_token E cfg m (wake env) with
  | (m1, Raise e) => (m1, Raised e)
  | (m1, Pending) => (m1, Stuck)
  | (m1, Return _) =>
      let m2 := others env (session m1) in
      match send env with
      | Responds resp => on_response E cfg m2 (monotonic env) (utcnow env) resp
      | Fails e => (m2, Raised e)
      | Hangs => (m2, Stuck)
      end
  end.

(** One run of [request]: the state it leaves, how it ends, the local
    counter [requests] and, as a ghost, how each iteration ended. *)
Record run : Type := {
  final : state;
  result : outcome value;
  requests : Z;
  attempts : list attempt
}.

(** Lines 261-294.  [left] is the number of iterations the test
    [requests < self.retries] still admits: [requests] starts at 0 and
    grows by one per iteration, so it is [max 0 (retries - requests)].
    [envs] is indexed by the attempt number, from 1. *)
Fixpoint request_loop (left : nat) (E : environ) (cfg : config)
    (envs : Z -> attempt_env) (requests : Z) (m : state)
    (log : list attempt) : run :=
  match left with
  | O =>
      {| final := m; result := Raise RetriesExceededError;
         requests := requests; attempts := log |}
  | S left' =>
      let requests := requests + 1 in
      let m := set_requests m (_requests m + 1) in
      let (m', a) := try_body E cfg m (envs requests) in
      let log := log ++ [a] in
      match a with
      | Returned resp_json =>
          {| final := m'; result := Return resp_json;
             requests := requests; attempts := log |}
      | Throttled => request_loop left' E cfg envs requests m' log
      | Raised e =>
          if is_Exception e && should_retry cfg e
          then request_loop left' E cfg envs requests m' log
          else {| final := m'; result := Raise e;
                  requests := requests; attempts := log |}
      | Stuck =>
          {| final := m'; result := Pending;
             requests := requests; attempts := log |}
      end
  end.

Definition request (E : environ) (cfg : config) (m : state)
    (envs : Z -> attempt_env) : run :=
  request_loop (Z.to_nat (retries cfg)) E cfg envs 0 m [].


(** *** _rate_manager (lines 143-207)

    The task is suspended at one of its two [await]s, or has not run yet,
    or has left its [try] (returned, cancelled, or an exception logged). *)
Inductive rm_pc : Type :=
| RmCreated
| RmSleeping (sleep : option Q) (last_check_end : Q)
| RmPenaltySleep (sleep : option Q) (now last_check_end : Q)
| RmExited.

(** [for i in range(i, i + count): put_nowait(i)]; the exception, if one
    is raised, comes with the queue as the earlier iterations left it. *)
Fixpoint put_range (count : nat) (i : Z) (q : queue) : queue * option exn :=
  match count with
  | O => (q, None)
  | S count' =>
      match put_nowait q i with
      | Some q' => put_range count' (i + 1) q'
      | None => (q, Some QueueFull)
      end
  end.

(** Line 186, [self.rate_limit * (now - last_check_end)], before the
    product is rounded: the difference of the two readings is a float, and
    an int rate limit is converted to a float, which can raise
    [OverflowError]. *)
Definition time_tokens_exact (rate now last_check_end : Q) : option Q :=
  match to_float rate with
  | Some r => Some (r * round64 (now - last_check_end))%Q
  | None => None
  end.

(** Lines 183-199.  [min(time_tokens, max_tokens)] is [max_tokens] only
    when that is strictly less, which it is for a product that overflows
    to [inf]; a product that overflows to [-inf] is the minimum, and
    [int()] refuses it with [OverflowError]. *)
Definition refill (cfg : config) (m : state) (now last_check_end : Q)
    : state * option exn :=
  match _token_queue m with
  | None => (m, Some (AttributeError "full"))
  | Some q =>
      if negb (full q || truthy_float (retry_after_time m)) then
        match rate_limit cfg with
        | None => (m, Some TypeError)
        | Some rate =>
            match time_tokens_exact rate now last_check_end with
            | None => (m, Some OverflowError)
            | Some exact =>
                let max_tokens := maxsize q - qsize q in
                if float_max_exceeded exact && Qle_bool exact 0
                then (m, Some OverflowError)
                else
                  let new_tokens :=
                    if float_max_exceeded exact then max_tokens
                    else
                      let time_tokens := round64 exact in
                      if Qle_bool time_tokens (inject_Z max_tokens)
                      then int_of_float time_tokens else max_tokens in
                  let (q', err) := put_range (Z.to_nat new_tokens) 0 q in
                  (set_queue m q', err)
            end
        end
      else (m, None)
  end.

(** Lines 183-203: from the refill test to the interval sleep. *)
Definition loop_tail (cfg : config) (m : state) (sleep : option Q)
    (now last_check_end : Q) : state * rm_pc :=
  match refill cfg m now last_check_end with
  | (m', Some _) => (m', RmExited)
  | (m', None) => (m', RmSleeping sleep now)
  end.

(** Lines 168-180, then the tail unless the penalty sleep suspends the
    task first. *)
Definition loop_head (cfg : config) (m : state) (sleep : option Q)
    (now last_check_end : Q) : state * rm_pc :=
  match retry_after_time m with
  | Some t =>
      if negb (Qeq_bool t 0) then
        if Qle_bool t now
        then loop_tail cfg (set_penalty m true None) sleep now last_check_end
        else (m, RmPenaltySleep sleep now last_check_end)
      else loop_tail cfg m sleep now last_check_end
  | None => loop_tail cfg m sleep now last_check_end
  end.

(** Lines 152-165 and the first iteration. *)
Definition start (cfg : config) (m : state) (now : Q) : state * rm_pc :=
  if negb (truthy_float (rate_limit cfg)) then (m, RmExited)
  else
    match _sleep_duration cfg, _token_queue m with
    | Return sleep, Some q =>
        let (q', err) := put_range (Z.to_nat (maxsize q)) 0 q in
        match err with
        | Some _ => (set_queue m q', RmExited)
        | None => loop_head cfg (set_queue m q') sleep now now
        end
    | _, _ => (m, RmExited)
    end.

(** The task runs from where it is suspended to its next suspension. *)
Definition rate_manager_step (cfg : config) (now : Q) (m : state)
    (pc : rm_pc) : state * rm_pc :=
  match pc with
  | RmCreated => start cfg m now
  | RmSleeping sleep last_check_end => loop_head cfg m sleep now last_check_end
  | RmPenaltySleep sleep now' last_check_end =>
      loop_tail cfg m sleep now' last_check_end
  | RmExited => (m, RmExited)
  end.

(** ** The coroutines together

    One event loop runs the rate manager and the request coroutines.  The
    request coroutines appear through what they do to the bucket: an
    iteration of the retry loop that reaches [_get_token] ([Dispatch], a
    fresh number per call), the resumption of a suspended [_get_token]
    ([Resume]), and the handling of a 429 ([Throttle]).  [Tick] lets the
    monotonic clock advance; within a segment it stands still.  The loop
    may resume a getter that waits on the queue at any time (it re-checks
    [empty()]), and a getter that waits on the event only once [set()] has
    resolved its future; [Event.wait] does not look at the flag again. *)
Inductive getter : Type :=
| WaitingEvent (woken : bool)
| WaitingQueue
| Acquired (at_time : Q)
| Refused (e : exn).

Record system : Type := {
  shared : state;
  clock : Q;
  rate_manager : rm_pc;
  getters : gmap nat getter
}.

Inductive event : Type :=
| Tick (t : Q)
| RunRateManager
| CancelRateManager
| Dispatch (tid : nat)
| Resume (tid : nat)
| Throttle (header : option string) (utc : Q).

Definition wake_waiter (g : getter) : getter :=
  match g with
  | WaitingEvent _ => WaitingEvent true
  | _ => g
  end.

(** How a segment of [_get_token] left the getter [tid]. *)
Definition settle (s : system) (tid : nat) (g : gate) : system :=
  match g with
  | Passed m =>
      {| shared := m; clock := clock s; rate_manager := rate_manager s;
         getters := <[tid := Acquired (clock s)]> (getters s) |}
  | GateRaises e =>
      {| shared := shared s; clock := clock s; rate_manager := rate_manager s;
         getters := <[tid := Refused e]> (getters s) |}
  | AtEvent =>
      {| shared := shared s; clock := clock s; rate_manager := rate_manager s;
         getters := <[tid := WaitingEvent false]> (getters s) |}
  | AtQueue =>
      {| shared := shared s; clock := clock s; rate_manager := rate_manager s;
         getters := <[tid := WaitingQueue]> (getters s) |}
  end.

Definition with_shared (s : system) (m : state) : system :=
  {| shared := m; clock := clock s; rate_manager := rate_manager s;
     getters := getters s |}.

Definition step (E : environ) (cfg : config) (s : system) (ev : event) : system :=
  match ev with
  | Tick t =>
      {| shared := shared s; clock := if Qle_bool (clock s) t then t else clock s;
         rate_manager := rate_manager s; getters := getters s |}
  | RunRateManager =>
      let (m, pc) := rate_manager_step cfg (clock s) (shared s) (rate_manager s) in
      let set_now := negb (retry_after_event (shared s)) && retry_after_event m in
      {| shared := m; clock := clock s; rate_manager := pc;
         getters := if set_now then wake_waiter <$> getters s else getters s |}
  | CancelRateManager =>
      match _rate_manager_task (shared s) with
      | Some t =>
          {| shared := set_task (shared s) (cancel t); clock := clock s;
             rate_manager := RmExited; getters := getters s |}
      | None => s
      end
  | Dispatch tid =>
      match getters s !! tid with
      | Some _ => s
      | None =>
          let m := set_requests (shared s) (_requests (shared s) + 1) in
          settle (with_shared s m) tid (enter_get_token E cfg m)
      end
  | Resume tid =>
      match getters s !! tid with
      | Some (WaitingEvent true) | Some WaitingQueue =>
          settle s tid (take_token (shared s))
      | _ => s
      end
  | Throttle header utc =>
      with_shared s (fst (throttle E cfg (shared s) (clock s) utc header))
  end.

Definition run_events (E : environ) (cfg : config) (s : system)
    (trace : list event) : system :=
  fold_left (step E cfg) trace s.

(** The system right after [__init__]: the task exists when the rate limit
    is truthy (line 91). *)
Definition boot (a : init_args) (now : Q) : system :=
  {| shared := snd (__init__ a now);
     clock := now;
     rate_manager :=
       if truthy_float (arg_rate_limit a) then RmCreated else RmExited;
     getters := ∅ |}.

(** Tokens in the bucket and its [maxsize]; 0 when there is no queue. *)
Definition bucket_tokens (m : state) : Z :=
  match _token_queue m with
  | Some q => qsize q
  | None => 0
  end.

Definition bucket_capacity (m : state) : Z :=
  match _token_queue m with
  | Some q => maxsize q
  | None => 0
  end.

Definition tokens (s : system) : Z := bucket_tokens (shared s).
Definition capacity (s : system) : Z := bucket_capacity (shared s).

(** The bucket holds no more than its [maxsize]; a [maxsize] of zero or
    less, for which [asyncio] sets no bound, counts as zero. *)
Definition within_capacity (m : state) : Prop :=
  0 <= bucket_tokens m <= Z.max 0 (bucket_capacity m).


(** *** Vocabulary of the statements on [request] *)








(** The attempts that were followed by another one. *)
Definition retried (a : attempt) (r : run) : Prop :=
  exists i, attempts r !! i = Some a /\ (S i < length (attempts r))%nat.

(** *** Vocabulary of the statements on the event loop *)

(** What one run of a piece of the rate manager does to the bucket and to
    the penalty box: the bucket stays within its capacity and loses
    nothing; the event is set and the deadline erased only when the
    deadline has passed. *)
Definition refilled (now : Q) (m m' : state) : Prop :=
  within_capacity m'
  /\ bucket_capacity m' = bucket_capacity m
  /\ bucket_tokens m <= bucket_tokens m'
  /\ _requests m' = _requests m
  /\ ((retry_after_event m' = retry_after_event m
       /\ retry_after_time m' = retry_after_time m)
      \/ exists t, retry_after_time m = Some t /\ (t <= now)%Q
                   /\ retry_after_event m' = true
                   /\ retry_after_time m' = None).

(** What a piece of [_get_token] that lets the caller through does to the
    shared state: it takes a token or leaves the bucket alone, and does
    not touch the penalty box. *)
Definition drained (m m' : state) : Prop :=
  bucket_capacity m' = bucket_capacity m
  /\ bucket_tokens m' <= bucket_tokens m
  /\ retry_after_event m' = retry_after_event m
  /\ retry_after_time m' = retry_after_time m.

(** The invariant of the event loop: the bucket is within its capacity,
    and empty as long as the rate manager has not run. *)
Definition bucket_invariant (s : system) : Prop :=
  within_capacity (shared s)
  /\ (rate_manager s = RmCreated -> tokens s = 0).

(** The rate manager is the only one to set the event, and it does so only
    on finding the deadline passed. *)
Definition released (now : Q) (m m' : state) : Prop :=
  (retry_after_event m' = retry_after_event m
   /\ retry_after_time m' = retry_after_time m)
  \/ exists t, retry_after_time m = Some t /\ (t <= now)%Q.



(** *** Vocabulary of the further statements *)

(** An attempt after which the loop goes on: a handled 429, or an
    exception that the predicate accepts. *)
Definition goes_on (cfg : config) (a : attempt) : Prop :=
  a = Throttled
  \/ exists e, a = Raised e /\ is_Exception e && should_retry cfg e = true.

Definition with_retries (a : init_args) (n : Z) : init_args :=
  {| arg_should_retry := arg_should_retry a;
     arg_retries := n;
     arg_rate_limit := arg_rate_limit a;
     arg_rate_limit_burst := arg_rate_limit_burst a;
     arg_json_deserialize := arg_json_deserialize a |}.

Definition is_acquired (g : getter) : bool :=
  match g with
  | Acquired _ => true
  | _ => false
  end.

(** The number of calls of [_get_token] that have returned. *)
Definition acquired_in (g : gmap nat getter) : nat :=
  size (filter (fun kv : nat * getter => is_acquired kv.2 = true) g).

Definition acquisitions (s : system) : Z := Z.of_nat (acquired_in (getters s)).

(** What a getter can be on a manager as [__init__] leaves it: never
    refused, and waiting only when there is a rate limit. *)
Definition sound_getter (limited : bool) (g : getter) : Prop :=
  match g with
  | Acquired _ => True
  | Refused _ => False
  | WaitingEvent _ | WaitingQueue => limited = true
  end.





Definition is_run (ev : event) : bool :=
  match ev with
  | RunRateManager => true
  | _ => false
  end.

(** *** Sample arguments, to run the model on

    [default_args] holds the defaults of [__init__] (lines 65-68);
    [sample_loads] stands in for [json.loads] and accepts a text that opens
    an object. *)
Definition sample_loads (s : string) : outcome value :=
  if String.prefix "{" s then Return (VOpaque s) else Raise JSONDecodeError.

Definition default_args : init_args :=
  {| arg_should_retry := default_retry;
     arg_retries := 3;
     arg_rate_limit := Some 3%Q;
     arg_rate_limit_burst := 20;
     arg_json_deserialize := sample_loads |}.

Definition with_burst (a : init_args) (burst : Z) : init_args :=
  {| arg_should_retry := arg_should_retry a;
     arg_retries := arg_retries a;
     arg_rate_limit := arg_rate_limit a;
     arg_rate_limit_burst := burst;
     arg_json_deserialize := arg_json_deserialize a |}.

Definition with_rate_limit (a : init_args) (rate : option Q) : init_args :=
  {| arg_should_retry := arg_should_retry a;
     arg_retries := arg_retries a;
     arg_rate_limit := rate;
     arg_rate_limit_burst := arg_rate_limit_burst a;
     arg_json_deserialize := arg_json_deserialize a |}.

Definition with_should_retry (a : init_args) (f : exn -> bool) : init_args :=
  {| arg_should_retry := f;
     arg_retries := arg_retries a;
     arg_rate_limit := arg_rate_limit a;
     arg_rate_limit_burst := arg_rate_limit_burst a;
     arg_json_deserialize := arg_json_deserialize a |}.

(** The caller assigns [max_requests] on the instance. *)
Definition with_max_requests (cfg : config) (v : value) : config :=
  {| retries := retries cfg;
     should_retry := should_retry cfg;
     rate_limit := rate_limit cfg;
     rate_limit_burst := rate_limit_burst cfg;
     json_deserialize := json_deserialize cfg;
     max_requests := Some v;
     default_retry_after_delay := default_retry_after_delay cfg |}.

(** The module as it is, with a [dateutil] that would reject everything. *)
Definition aiorm : environ := aiorm_environ (fun _ => ParserError).

(** An iteration during which nothing else runs: a suspended [_get_token]
    is resumed in the state it left, and the transport delivers [t]. *)
Definition quiet (t : transport) (now : Q) : attempt_env :=
  {| wake := Some; others := fun m => m; send := t; monotonic := now;
     utcnow := 0 |}.

Definition replies (status : Z) (header : option string) (body : string)
    : transport :=
  Responds {| status := status; retry_after := header; text := body |}.


(** A manager whose bucket the rate manager has filled. *)
Definition filled (a : init_args) (now : Q) : state :=
  shared (run_events aiorm (init_config a) (boot a now) [RunRateManager]).

(** * Properties *)

(** ** binary64 rounding *)

Lemma pow2_pos (e : Z) : (0 < pow2 e)%Q.
Proof.
  unfold pow2. destruct (0 <=? e) eqn:H.
  - unfold Qlt. simpl. assert (0 < 2 ^ e) by (apply Z.pow_pos_nonneg; lia). lia.
  - reflexivity.
Qed.

Lemma round_half_even_spec (a b : Z) :
  0 < b -> Z.abs (2 * (round_half_even a b * b - a)) <= b.
Proof.
  intros Hb. unfold round_half_even.
  pose proof (Z.div_mod a b ltac:(lia)) as Hdm.
  pose proof (Z.mod_pos_bound a b Hb) as Hr.
  destruct (2 * (a mod b) <? b) eqn:H1; [nia|].
  destruct (b <? 2 * (a mod b)) eqn:H2; [nia|].
  destruct (Z.even (a / b)); nia.
Qed.

Lemma round_half_even_nonneg (a b : Z) :
  0 < b -> 0 <= a -> 0 <= round_half_even a b.
Proof.
  intros Hb Ha. unfold round_half_even.
  assert (0 <= a / b) by (apply Z.div_pos; lia).
  destruct (_ <? _); [lia|]. destruct (_ <? _); [lia|].
  destruct (Z.even _); lia.
Qed.

Lemma round_half_even_nonpos (a b : Z) :
  0 < b -> a <= 0 -> round_half_even a b <= 0.
Proof.
  intros Hb Ha. unfold round_half_even.
  pose proof (Z.div_mod a b ltac:(lia)) as Hdm.
  pose proof (Z.mod_pos_bound a b Hb) as Hr.
  destruct (2 * (a mod b) <? b) eqn:H1; [nia|].
  apply Z.ltb_ge in H1.
  assert (a / b <= -1) by nia.
  destruct (b <? 2 * (a mod b)); [lia|].
  destruct (Z.even (a / b)); lia.
Qed.

(** Twice the distance of [m * 2^e] to [n / d] *)
Lemma scaled_error_up (n m : Z) (d : positive) (P : Z) :
  0 < P ->
  Z.abs (2 * (m * (Z.pos d * P) - n)) <= Z.pos d * P ->
  (Qabs (inject_Z m * inject_Z P - (n # d)) * 2 <= inject_Z P)%Q.
Proof.
  intros HP Hs.
  assert (H2 : (0 <= 2)%Q) by discriminate.
  assert (Hgoal : (- (inject_Z P / 2) <= inject_Z m * inject_Z P - (n # d)
                   <= inject_Z P / 2)%Q).
  { split; unfold Qle, Qdiv, Qminus, Qplus, Qmult, Qopp, Qinv, inject_Z;
      cbn [Qnum Qden]; rewrite ?Pos2Z.inj_mul; nia. }
  apply Qabs_Qle_condition in Hgoal.
  eapply Qle_trans; [apply Qmult_le_compat_r; [exact Hgoal | exact H2]|].
  apply Qle_lteq. right. field.
Qed.

Lemma scaled_error_down (n m : Z) (d : positive) (P : positive) :
  Z.abs (2 * (m * Z.pos d - n * Z.pos P)) <= Z.pos d ->
  (Qabs (inject_Z m * (1 # P) - (n # d)) * 2 <= 1 # P)%Q.
Proof.
  intros Hs.
  assert (H2 : (0 <= 2)%Q) by discriminate.
  assert (Hgoal : (- ((1 # P) / 2) <= inject_Z m * (1 # P) - (n # d)
                   <= (1 # P) / 2)%Q).
  { split; unfold Qle, Qdiv, Qminus, Qplus, Qmult, Qopp, Qinv, inject_Z;
      cbn [Qnum Qden]; rewrite ?Pos2Z.inj_mul; nia. }
  apply Qabs_Qle_condition in Hgoal.
  eapply Qle_trans; [apply Qmult_le_compat_r; [exact Hgoal | exact H2]|].
  apply Qle_lteq. right. field.
Qed.

(** [round64 x] is a multiple of the unit in the last place, at most half a
    unit away from [x], and of the sign of [x]. *)
Lemma round64_value (x : Q) :
  ~ (x == 0)%Q ->
  exists m : Z,
    (round64 x == inject_Z m * pow2 (ulp_exponent x))%Q
    /\ (Qabs (inject_Z m * pow2 (ulp_exponent x) - x) * 2
        <= pow2 (ulp_exponent x))%Q
    /\ ((0 <= x)%Q -> 0 <= m)
    /\ ((x <= 0)%Q -> m <= 0).
Proof.
  intros Hx. unfold round64.
  destruct (Qeq_bool x 0) eqn:Hz; [apply Qeq_bool_iff in Hz; contradiction|].
  generalize (ulp_exponent x). intros e.
  destruct x as [n d]. cbn [Qnum Qden].
  assert (Hsign1 : (0 <= n # d)%Q -> 0 <= n) by (unfold Qle; simpl; lia).
  assert (Hsign2 : (n # d <= 0)%Q -> n <= 0) by (unfold Qle; simpl; lia).
  unfold pow2. destruct (0 <=? e) eqn:He.
  - apply Z.leb_le in He.
    assert (Hp : 0 < 2 ^ e) by (apply Z.pow_pos_nonneg; lia).
    assert (Hb : 0 < Z.pos d * 2 ^ e) by lia.
    exists (round_half_even n (Z.pos d * 2 ^ e)).
    split; [apply Qred_correct|]. split; [|split].
    + apply scaled_error_up; [exact Hp|]. now apply round_half_even_spec.
    + intros H. apply round_half_even_nonneg; auto.
    + intros H. apply round_half_even_nonpos; auto.
  - apply Z.leb_gt in He.
    assert (Hp : 0 < 2 ^ (- e)) by (apply Z.pow_pos_nonneg; lia).
    exists (round_half_even (n * 2 ^ (- e)) (Z.pos d)).
    split; [apply Qred_correct|]. split; [|split].
    + apply scaled_error_down. rewrite Z2Pos.id by exact Hp.
      apply round_half_even_spec. lia.
    + intros H. apply round_half_even_nonneg; [lia|]. apply Hsign1 in H. nia.
    + intros H. apply round_half_even_nonpos; [lia|]. apply Hsign2 in H. nia.
Qed.







Lemma round64_zero (x : Q) : (x == 0)%Q -> round64 x = 0%Q.
Proof.
  intros Hx. unfold round64. apply Qeq_bool_iff in Hx. now rewrite Hx.
Qed.





Lemma round64_nonpos (x : Q) : (x <= 0)%Q -> (round64 x <= 0)%Q.
Proof.
  intros Hx. destruct (Qeq_dec x 0) as [Hz | Hnz].
  - rewrite (round64_zero x Hz). apply Qle_refl.
  - destruct (round64_value x Hnz) as (m & Hv & _ & _ & Hneg).
    rewrite Hv. specialize (Hneg Hx).
    assert (Hm : (inject_Z m <= 0)%Q) by (unfold Qle; simpl; lia).
    pose proof (pow2_pos (ulp_exponent x)) as Hp. nra.
Qed.








(** ** The retry-after parser *)

Section RetryAfterParser.

Variable E : environ.
Variable cfg : config.
Variable utc : Q.

(** A value [int()] accepts is returned as it is, whatever the
    namespace: neither name of line 309-310 is read. *)
Lemma parse_retry_after_int (v : value) (n : Z) :
  int v = Return n -> _parse_retry_after E cfg utc v = Return (VInt n).
Proof.
  intros H. unfold _parse_retry_after. now rewrite H.
Qed.

Lemma int_of_literal (s : string) (n : Z) :
  int_of_string s = Some n -> int (VStr s) = Return n.
Proof.
  intros H. simpl. now rewrite H.
Qed.

(** C4, as the code has it: the string "120" yields 120, and every string
    that [int()] accepts yields that integer unchanged, without a clamp
    (a negative literal yields a negative number). *)
Theorem parse_retry_after_seconds (s : string) (n : Z)
    (H : int_of_string s = Some n) :
  _parse_retry_after E cfg utc (VStr "120") = Return (VInt 120)
  /\ _parse_retry_after E cfg utc (VStr s) = Return (VInt n).
Proof.
  split.
  - apply parse_retry_after_int. reflexivity.
  - apply parse_retry_after_int, int_of_literal, H.
Qed.

End RetryAfterParser.

Lemma parse_retry_after_seconds_witness :
  int_of_string "-5" = Some (-5)
  /\ _parse_retry_after aiorm (init_config default_args) 0 (VStr "120")
     = Return (VInt 120)
  /\ _parse_retry_after aiorm (init_config default_args) 0 (VStr "-5")
     = Return (VInt (-5)).
Proof.
  split; [reflexivity|].
  apply (parse_retry_after_seconds aiorm (init_config default_args) 0 "-5" (-5)).
  reflexivity.
Defined.

(** C4 as stated fails: nothing is clamped.  A negative literal yields a
    negative number; and where the three names of lines 309-310 are bound,
    a date 10 seconds in the past yields 86390, the seconds field of the
    normalised difference, not 0. *)
Lemma parse_retry_after_not_clamped :
  (exists n, _parse_retry_after aiorm (init_config default_args) 0 (VStr "-5")
             = Return (VInt n) /\ n < 0)
  /\ (let E := {| globals := "parser" :: "datetime" :: "timezone"
                              :: module_globals;
                  parser_parse := fun _ => ParsedAware 1000 |}%string in
      _parse_retry_after E (init_config default_args) 1010
        (VStr "Wed, 21 Oct 2015 07:28:00 GMT")
      = Return (VInt 86390)).
Proof.
  split.
  - exists (-5). split; [reflexivity | lia].
  - reflexivity.
Qed.


(** C5 at a failing input: for the string "soon", which is neither an
    integer nor a date, the call raises [NameError] where the default delay
    was to be returned. *)
Theorem parse_retry_after_unparseable_raises :
  int_of_string "soon" = None
  /\ _parse_retry_after aiorm
       (init_config default_args) 0 (VStr "soon")
     = Raise (NameError "parser").
Proof.
  split; reflexivity.
Qed.

(** Were the three names imported, the default would be reached, and a date
    10 seconds in the past would yield 86390: [timedelta.seconds] is the
    seconds field of the normalised difference, not its length. *)
Lemma parse_retry_after_with_imports :
  let E := {| globals := "parser" :: "datetime" :: "timezone" :: module_globals;
              parser_parse := fun s => if String.eqb s "soon" then ParserError
                                       else ParsedAware 1000 |}%string in
  _parse_retry_after E (init_config default_args) 1010 (VStr "a date")
  = Return (VInt 86390)
  /\ _parse_retry_after E (init_config default_args) 1010 (VStr "soon")
     = Return (VExc (AttributeError "default_retry_after_delay")).
Proof.
  split; reflexivity.
Qed.

(** ** The default retry predicate *)


(** ** Construction *)

Lemma init_capacity (a : init_args) (now : Q) :
  _token_queue (snd (__init__ a now))
  = if truthy_float (arg_rate_limit a)
    then Some {| maxsize := arg_rate_limit_burst a; items := [] |}
    else None.
Proof. reflexivity. Qed.

(** C6 at a failing input: constructed with a burst size of 1 the manager
    gets a queue of [maxsize] 1, although the class declares a minimum
    burst size of 2. *)
Theorem init_ignores_min_burst_size :
  rate_limit_min_burst_size = 2
  /\ _token_queue (snd (__init__ (with_burst default_args 1) 0))
     = Some {| maxsize := 1; items := [] |}
  /\ capacity (run_events aiorm (init_config (with_burst default_args 1))
                 (boot (with_burst default_args 1) 0) [RunRateManager]) = 1.
Proof.
  repeat split; reflexivity.
Qed.

(** ** close *)

(** C9: when a first [close()] has returned, a second one returns too and
    leaves the manager as the first left it: the session, which is [None],
    is not closed again, and the task stays cancelled. *)
Theorem close_twice (m m1 : state) (now1 now2 : Q)
    (Hfirst : close m now1 = (m1, Return tt))
    (Hstart : (_start m <= now1)%Q) (Hlater : (now1 <= now2)%Q) :
  close m1 now2 = (m1, Return tt)
  /\ __session m1 = None
  /\ session_closes (fst (close m1 now2)) = session_closes m1.
Proof.
  unfold close in Hfirst.
  destruct (Qeq_bool (now1 - _start m) 0) eqn:Hz; [discriminate|].
  destruct (_rate_manager_task m) as [t|] eqn:Ht; [|discriminate].
  injection Hfirst as <-.
  assert (Hnz : Qeq_bool (now2 - _start m) 0 = false).
  { apply not_true_is_false. intros Heq. apply Qeq_bool_eq in Heq.
    assert (Hne : ~ (now1 - _start m == 0)%Q).
    { intros Hq. apply Qeq_eq_bool in Hq. congruence. }
    apply Hne. lra. }
  assert (Hclose : forall m0, __session m0 = None ->
            _rate_manager_task m0 = Some (cancel t) ->
            _start m0 = _start m ->
            close m0 now2 = (set_session (set_task m0 (cancel (cancel t))) None
                               (session_closes m0), Return tt)).
  { intros m0 Hs Hk Hst. unfold close. rewrite Hst, Hnz, Hk. simpl. now rewrite Hs. }
  destruct (__session m) as [[c]|] eqn:Hsess; simpl; rewrite ?Hsess; simpl;
    [destruct c; simpl|];
    (split; [rewrite Hclose by reflexivity; reflexivity
            | split; [reflexivity | rewrite Hclose by reflexivity; reflexivity]]).
Qed.

Lemma close_twice_witness :
  let m := session (filled default_args 1) in
  let m1 := fst (close m 5) in
  close m 5 = (m1, Return tt)
  /\ session_closes m1 = 1%nat
  /\ close m1 6 = (m1, Return tt)
  /\ __session m1 = None
  /\ session_closes (fst (close m1 6)) = session_closes m1.
Proof.
  split; [reflexivity|]. split; [reflexivity|].
  apply (close_twice (session (filled default_args 1)) _ 5 6).
  - reflexivity.
  - vm_compute. discriminate.
  - vm_compute. discriminate.
Defined.

(** Without a rate limit not even the first [close()] returns. *)
Lemma close_without_rate_limit :
  snd (close (snd (__init__ (with_rate_limit default_args None) 0)) 5)
  = Raise (AttributeError "cancel").
Proof. reflexivity. Qed.

(** ** The 429 handler *)

Lemma throttle_penalty (E : environ) (cfg : config) (m : state) (now utc : Q)
    (header : option string) :
  fst (throttle E cfg m now utc header) = m
  \/ exists t, fst (throttle E cfg m now utc header)
               = set_penalty m false (Some t).
Proof.
  unfold throttle.
  destruct (_parse_retry_after E cfg utc _) as [v|e|]; try now left.
  destruct (float_add now v) as [t|e|]; try now left.
  right. now exists t.
Qed.


(** ** The retry loop *)

Section RetryLoop.

Variable E : environ.
Variable cfg : config.
Variable envs : Z -> attempt_env.

(** The log only grows. *)
Lemma attempts_request_loop (left : nat) :
  forall (n : Z) (m : state) (log : list attempt),
    attempts (request_loop left E cfg envs n m log)
    = log ++ attempts (request_loop left E cfg envs n m []).
Proof.
  induction left as [|left IH]; intros n m log; simpl.
  - now rewrite app_nil_r.
  - destruct (try_body E cfg (set_requests m (_requests m + 1)) (envs (n + 1)))
      as [m' a].
    destruct a as [v| |e|]; simpl; try reflexivity.
    + rewrite IH. rewrite (IH _ _ [Throttled]). now rewrite app_assoc.
    + destruct (is_Exception e && should_retry cfg e); simpl; [|reflexivity].
      rewrite IH. rewrite (IH _ _ [Raised e]). now rewrite app_assoc.
Qed.

(** An iteration whose [try] block raises an exception that the
    predicate declines ends the run with that exception. *)
Lemma request_loop_propagates (left : nat) (n : Z) (m m' : state)
    (log : list attempt) (e : exn) :
  try_body E cfg (set_requests m (_requests m + 1)) (envs (n + 1))
  = (m', Raised e) ->
  is_Exception e && should_retry cfg e = false ->
  request_loop (S left) E cfg envs n m log
  = {| final := m'; result := Raise e; requests := n + 1;
       attempts := log ++ [Raised e] |}.
Proof.
  intros Hbody Hno. simpl. rewrite Hbody, Hno. reflexivity.
Qed.



Lemma take_token_requests (m : state) :
  match take_token m with
  | Passed m' => _requests m' = _requests m
  | _ => True
  end.
Proof.
  unfold take_token. destruct (_token_queue m) as [q|]; [|exact I].
  now destruct (items q).
Qed.

Lemma enter_get_token_requests (m : state) :
  match enter_get_token E cfg m with
  | Passed m' => _requests m' = _requests m
  | _ => True
  end.
Proof.
  unfold enter_get_token.
  destruct (truthy _ && int_eq _ _).
  - destruct (load_name (globals E) "MaximumRequestsExceeded"); try exact I;
      destruct (load_name (globals E) "self_requests"); exact I.
  - destruct (truthy_float (rate_limit cfg)); [|reflexivity].
    destruct (retry_after_event m); [apply take_token_requests | exact I].
Qed.





Lemma request_loop_retried (left : nat) :
  forall (n : Z) (m : state) (a : attempt),
    retried a (request_loop left E cfg envs n m []) ->
    a = Throttled
    \/ exists e, a = Raised e /\ is_Exception e && should_retry cfg e = true.
Proof.
  induction left as [|left IH]; intros n m a (i & Hi & Hlt).
  - simpl in Hlt. lia.
  - revert Hi Hlt. simpl.
    destruct (try_body E cfg (set_requests m (_requests m + 1)) (envs (n + 1)))
      as [m' a'].
    destruct a' as [v| |e|]; simpl; try (intros _ Hlt; simpl in Hlt; lia).
    + rewrite attempts_request_loop. destruct i as [|i]; simpl.
      * intros [= <-] _. now left.
      * intros Hi Hlt. apply (IH (n + 1) m'). exists i. split; [exact Hi | lia].
    + destruct (is_Exception e && should_retry cfg e) eqn:Hre; simpl;
        try (intros _ Hlt; simpl in Hlt; lia).
      rewrite attempts_request_loop. destruct i as [|i]; simpl.
      * intros [= <-] _. right. eauto.
      * intros Hi Hlt. apply (IH (n + 1) m'). exists i. split; [exact Hi | lia].
Qed.


End RetryLoop.


(** C3 as stated fails twice.  A retryable status whose body does not
    decode is not retried: a 503 with the body "Service Unavailable" ends
    the call with the deserializer's exception after one attempt.  And a
    budget below zero gives no attempt at all. *)
Lemma request_retries_not_always_exhausted :
  (let r := request aiorm (init_config default_args) (filled default_args 1)
              (fun _ : Z => quiet (replies 503 None "Service Unavailable") 2) in
   default_retry (ClientResponseError 503) = true
   /\ result r = Raise JSONDecodeError
   /\ requests r = 1)
  /\ (let cfg := init_config (with_retries default_args (-2)) in
      let r := request aiorm cfg (filled default_args 1)
                 (fun _ : Z => quiet (replies 503 None "") 2) in
      result r = Raise RetriesExceededError
      /\ requests r = 0
      /\ requests r <> retries cfg).
Proof.
  vm_compute. repeat split. discriminate.
Qed.


(** C8 as stated fails: a declined status whose body does not decode is not
    the failure that [request] raises.  A 404 with an HTML body ends the
    call with the deserializer's exception. *)
Lemma request_does_not_always_propagate_status :
  let r := request aiorm (init_config default_args) (filled default_args 1)
             (fun _ : Z => quiet (replies 404 None "<html>Not Found</html>") 2) in
  default_retry (ClientResponseError 404) = false
  /\ result r = Raise JSONDecodeError
  /\ result r <> Raise (ClientResponseError 404).
Proof.
  vm_compute. repeat split. discriminate.
Qed.


(** C10 as stated fails: under the default predicate a 429 is retried too.
    Three responses with status 429 and the hint "1" use up the budget of
    three attempts. *)
Lemma default_retry_retries_throttled :
  let r := request aiorm (init_config default_args) (filled default_args 1)
             (fun _ : Z => quiet (replies 429 (Some "1"%string) "") 2) in
  should_retry (init_config default_args) = default_retry
  /\ retried Throttled r
  /\ requests r = 3
  /\ ~ In 429 [500; 502; 503; 504; 599].
Proof.
  split; [reflexivity|]. split; [|split; [vm_compute; reflexivity|]].
  - exists 0%nat. vm_compute. split; [reflexivity | lia].
  - simpl. lia.
Qed.

(** ** The request ceiling *)

(** With [max_requests] set on the instance and reached, line 222 looks up
    a name the module does not define. *)
Lemma get_token_at_ceiling (parse : string -> parsed) (cfg : config)
    (m : state) (n : Z) :
  max_requests cfg = Some (VInt n) -> n <> 0 -> _requests m = n ->
  enter_get_token (aiorm_environ parse) cfg m
  = GateRaises (NameError "MaximumRequestsExceeded").
Proof.
  intros Hmax Hn Hreq. unfold enter_get_token. rewrite Hmax. simpl.
  rewrite Hreq, Z.eqb_refl.
  destruct (n =? 0) eqn:Hz; [apply Z.eqb_eq in Hz; contradiction|].
  reflexivity.
Qed.

(** Left unset, [max_requests] reads as the [AttributeError] object of
    [__getattr__], which equals no counter: there is no ceiling. *)
Lemma get_token_without_ceiling (E : environ) (cfg : config) (m : state) :
  max_requests cfg = None ->
  enter_get_token E cfg m
  = if truthy_float (rate_limit cfg)
    then if retry_after_event m then take_token m else AtEvent
    else Passed m.
Proof.
  intros Hmax. unfold enter_get_token. rewrite Hmax. reflexivity.
Qed.

(** C7 at a failing input: with a ceiling of 1 the first dispatch, which
    brings the counter to 1, ends in [NameError], not in
    [MaxRequestsExceededError]; a predicate that accepts every exception
    has it retried, and the second attempt goes through. *)
Theorem ceiling_raises_name_error :
  let cfg := with_max_requests (init_config default_args) (VInt 1) in
  let eager :=
    with_max_requests
      (init_config (with_should_retry default_args (fun _ => true))) (VInt 1) in
  let envs := fun _ : Z => quiet (replies 200 None "") 2 in
  result (request aiorm cfg (filled default_args 1) envs)
  = Raise (NameError "MaximumRequestsExceeded")
  /\ result (request aiorm cfg (filled default_args 1) envs)
     <> Raise MaxRequestsExceededError
  /\ attempts (request aiorm eager (filled default_args 1) envs)
     = [Raised (NameError "MaximumRequestsExceeded"); Returned VEmptyDict].
Proof.
  repeat split; try reflexivity. vm_compute. discriminate.
Qed.

(** ** The token bucket *)

Lemma int_of_float_le (x : Q) (k : Z) :
  (x <= inject_Z k)%Q -> int_of_float x <= Z.max 0 k.
Proof.
  destruct x as [n d]. unfold Qle, int_of_float. simpl. intros H.
  destruct (Z.le_gt_cases 0 n) as [Hn | Hn].
  - rewrite Z.quot_div_nonneg by lia.
    assert (n / Z.pos d <= k) by (apply Z.div_le_upper_bound; lia). lia.
  - assert (Z.quot n (Z.pos d) <= 0); [|lia].
    rewrite <- (Z.opp_involutive n), Z.quot_opp_l by lia.
    pose proof (Z.quot_pos (- n) (Z.pos d)). lia.
Qed.

Lemma bucket_tokens_nonneg (m : state) : 0 <= bucket_tokens m.
Proof.
  unfold bucket_tokens, qsize. destruct (_token_queue m); lia.
Qed.

(** [put_nowait] does not raise while the tokens fit. *)
Lemma put_range_fits (count : nat) :
  forall (i : Z) (q : queue),
    maxsize q <= 0 \/ qsize q + Z.of_nat count <= maxsize q ->
    exists q', put_range count i q = (q', None)
               /\ maxsize q' = maxsize q
               /\ qsize q' = qsize q + Z.of_nat count.
Proof.
  induction count as [|count IH]; intros i q Hfit; simpl put_range.
  - exists q. repeat split. lia.
  - assert (Hput : put_nowait q i
                   = Some {| maxsize := maxsize q; items := items q ++ [i] |}).
    { unfold put_nowait, full. destruct (maxsize q <=? 0) eqn:Hm; [reflexivity|].
      destruct (maxsize q <=? qsize q) eqn:Hfull; [|reflexivity]. lia. }
    rewrite Hput.
    destruct (IH (i + 1) {| maxsize := maxsize q; items := items q ++ [i] |})
      as (q' & Hq' & Hmax & Hsize).
    { unfold qsize in *. simpl. rewrite length_app. simpl. lia. }
    exists q'. split; [exact Hq'|]. split; [exact Hmax|].
    rewrite Hsize. unfold qsize. simpl. rewrite length_app. simpl. lia.
Qed.

Lemma refilled_refl (now : Q) (m : state) :
  within_capacity m -> refilled now m m.
Proof.
  intros H. repeat split; try apply H; try lia. now left.
Qed.

Lemma refill_refilled (cfg : config) (m : state) (now' now last : Q) :
  within_capacity m -> refilled now' m (fst (refill cfg m now last)).
Proof.
  intros Hm. unfold refill.
  destruct (_token_queue m) as [q|] eqn:Hq; [|now apply refilled_refl].
  destruct (negb (full q || truthy_float (retry_after_time m)));
    [|now apply refilled_refl].
  destruct (rate_limit cfg) as [rate|]; [|now apply refilled_refl].
  destruct (time_tokens_exact rate now last) as [exact|];
    [|now apply refilled_refl].
  destruct (float_max_exceeded exact && Qle_bool exact 0);
    [now apply refilled_refl|].
  set (max_tokens := maxsize q - qsize q).
  set (new_tokens := if float_max_exceeded exact then max_tokens
                     else if Qle_bool (round64 exact) (inject_Z max_tokens)
                          then int_of_float (round64 exact) else max_tokens).
  assert (Hnew : new_tokens <= Z.max 0 max_tokens).
  { subst new_tokens. destruct (float_max_exceeded exact); [lia|].
    destruct (Qle_bool (round64 exact) (inject_Z max_tokens)) eqn:Hle.
    - apply int_of_float_le. now apply Qle_bool_iff.
    - lia. }
  unfold within_capacity, bucket_tokens, bucket_capacity in Hm. rewrite Hq in Hm.
  destruct (put_range_fits (Z.to_nat new_tokens) 0 q) as (q' & Hput & Hmax & Hsize).
  { subst max_tokens. lia. }
  rewrite Hput. simpl.
  unfold refilled, within_capacity, bucket_tokens, bucket_capacity. simpl.
  rewrite Hq, Hmax, Hsize. subst max_tokens.
  repeat split; try lia. now left.
Qed.

Lemma loop_tail_refilled (cfg : config) (m : state) (sleep : option Q)
    (now' now last : Q) :
  within_capacity m -> refilled now' m (fst (loop_tail cfg m sleep now last)).
Proof.
  intros Hm. unfold loop_tail.
  pose proof (refill_refilled cfg m now' now last Hm) as H.
  destruct (refill cfg m now last) as [m' [e|]]; exact H.
Qed.

Lemma loop_head_refilled (cfg : config) (m : state) (sleep : option Q)
    (now last : Q) :
  within_capacity m -> refilled now m (fst (loop_head cfg m sleep now last)).
Proof.
  intros Hm. unfold loop_head.
  destruct (retry_after_time m) as [t|] eqn:Ht;
    [|now apply loop_tail_refilled].
  destruct (negb (Qeq_bool t 0)); [|now apply loop_tail_refilled].
  destruct (Qle_bool t now) eqn:Hle; [|now apply refilled_refl].
  destruct (loop_tail_refilled cfg (set_penalty m true None) sleep now now last)
    as (Hin & Hcap & Htok & Hreq & Hpen); [exact Hm|].
  repeat split; try apply Hin; try assumption.
  right. exists t. split; [exact Ht|]. split; [now apply Qle_bool_iff|].
  destruct Hpen as [[-> ->] | (t' & Habs & _)]; [now split | discriminate].
Qed.

Lemma start_refilled (cfg : config) (m : state) (now : Q) :
  within_capacity m -> bucket_tokens m = 0 ->
  refilled now m (fst (start cfg m now)).
Proof.
  intros Hm Hzero. unfold start.
  destruct (negb (truthy_float (rate_limit cfg))); [now apply refilled_refl|].
  destruct (_sleep_duration cfg) as [sleep| |]; try now apply refilled_refl.
  destruct (_token_queue m) as [q|] eqn:Hq; [|now apply refilled_refl].
  unfold bucket_tokens in Hzero. rewrite Hq in Hzero.
  destruct (put_range_fits (Z.to_nat (maxsize q)) 0 q) as (q' & Hput & Hmax & Hsize).
  { lia. }
  rewrite Hput.
  assert (Hm' : within_capacity (set_queue m q')).
  { unfold within_capacity, bucket_tokens, bucket_capacity. simpl. lia. }
  destruct (loop_head_refilled cfg (set_queue m q') sleep now now Hm')
    as (Hin & Hcap & Htok & Hreq & Hpen).
  repeat split; try apply Hin.
  - rewrite Hcap. unfold bucket_capacity. simpl. now rewrite Hq.
  - etransitivity; [|exact Htok]. unfold bucket_tokens. simpl. rewrite Hq. lia.
  - exact Hreq.
  - exact Hpen.
Qed.

Lemma rate_manager_step_refilled (cfg : config) (now : Q) (m : state)
    (pc : rm_pc) :
  within_capacity m -> (pc = RmCreated -> bucket_tokens m = 0) ->
  refilled now m (fst (rate_manager_step cfg now m pc))
  /\ snd (rate_manager_step cfg now m pc) <> RmCreated.
Proof.
  intros Hm Hpc. split.
  - destruct pc as [|sleep last|sleep now' last|]; simpl.
    + apply start_refilled; auto.
    + now apply loop_head_refilled.
    + now apply loop_tail_refilled.
    + now apply refilled_refl.
  - destruct pc as [|sleep last|sleep now' last|]; simpl; try discriminate.
    + unfold start.
      destruct (negb (truthy_float (rate_limit cfg))); [discriminate|].
      destruct (_sleep_duration cfg) as [sleep| |]; try discriminate.
      destruct (_token_queue m) as [q|]; [|discriminate].
      destruct (put_range (Z.to_nat (maxsize q)) 0 q) as [q' [e|]];
        [discriminate|].
      unfold loop_head, loop_tail.
      repeat match goal with
             | |- context [match ?x with _ => _ end] => destruct x
             end; discriminate.
    + unfold loop_head, loop_tail.
      repeat match goal with
             | |- context [match ?x with _ => _ end] => destruct x
             end; discriminate.
    + unfold loop_tail.
      repeat match goal with
             | |- context [match ?x with _ => _ end] => destruct x
             end; discriminate.
Qed.

Lemma take_token_drained (m : state) :
  match take_token m with
  | Passed m' => drained m m'
  | _ => True
  end.
Proof.
  unfold take_token. destruct (_token_queue m) as [q|] eqn:Hq; [|exact I].
  destruct (items q) as [|x rest] eqn:Hitems; [exact I|].
  unfold drained, bucket_capacity, bucket_tokens, qsize. simpl.
  rewrite Hq, Hitems. simpl. repeat split. lia.
Qed.

Lemma enter_get_token_drained (E : environ) (cfg : config) (m : state) :
  match enter_get_token E cfg m with
  | Passed m' => drained m m'
  | _ => True
  end.
Proof.
  unfold enter_get_token.
  destruct (truthy _ && int_eq _ _).
  - destruct (load_name (globals E) "MaximumRequestsExceeded"); try exact I;
      destruct (load_name (globals E) "self_requests"); exact I.
  - destruct (truthy_float (rate_limit cfg)).
    + destruct (retry_after_event m); [apply take_token_drained | exact I].
    + repeat split. lia.
Qed.


Lemma shared_settle (s : system) (tid : nat) (g : gate) :
  shared (settle s tid g)
  = match g with
    | Passed m => m
    | _ => shared s
    end.
Proof. now destruct g. Qed.

(** Every step but the rate manager's leaves the capacity alone and adds
    no token. *)
Lemma step_adds_no_token (E : environ) (cfg : config) (s : system) (ev : event) :
  match ev with
  | RunRateManager => True
  | _ => capacity (step E cfg s ev) = capacity s
         /\ tokens (step E cfg s ev) <= tokens s
         /\ (rate_manager (step E cfg s ev) = RmCreated
             -> rate_manager s = RmCreated)
  end.
Proof.
  assert (Hsettle : forall (s0 : system) (tid : nat) (g : gate),
            match g with Passed m' => drained (shared s0) m' | _ => True end ->
            capacity (settle s0 tid g) = capacity s0
            /\ tokens (settle s0 tid g) <= tokens s0
            /\ (rate_manager (settle s0 tid g) = RmCreated
                -> rate_manager s0 = RmCreated)).
  { intros s0 tid g Hg. unfold tokens, capacity. rewrite shared_settle.
    destruct g as [m'| | |]; simpl; try (repeat split; auto; lia).
    destruct Hg as (Hc & Ht & _). repeat split; auto. }
  destruct ev as [t| | |tid|tid|header utc]; simpl; try exact I.
  - repeat split; auto. reflexivity.
  - destruct (_rate_manager_task (shared s)); simpl.
    + repeat split; try reflexivity. discriminate.
    + repeat split; auto. reflexivity.
  - destruct (getters s !! tid); [repeat split; auto; reflexivity|].
    set (m := set_requests (shared s) (_requests (shared s) + 1)).
    apply (Hsettle (with_shared s m) tid). apply enter_get_token_drained.
  - destruct (getters s !! tid) as [[[|]| | |]|];
      try (repeat split; auto; reflexivity);
      apply Hsettle, take_token_drained.
  - destruct (throttle_penalty E cfg (shared s) (clock s) utc header)
      as [-> | (t & ->)]; repeat split; auto; reflexivity.
Qed.

Lemma step_bucket_invariant (E : environ) (cfg : config) (s : system)
    (ev : event) :
  bucket_invariant s ->
  bucket_invariant (step E cfg s ev) /\ capacity (step E cfg s ev) = capacity s.
Proof.
  intros [Hin Hnew].
  destruct (match ev with RunRateManager => true | _ => false end) eqn:Hev.
  - destruct ev; try discriminate. simpl.
    destruct (rate_manager_step_refilled cfg (clock s) (shared s)
                (rate_manager s) Hin Hnew) as [(Hin' & Hcap & _) Hpc].
    destruct (rate_manager_step cfg (clock s) (shared s) (rate_manager s))
      as [m pc]. simpl in *.
    split; [split|]; auto. intros Hc. simpl in Hc. contradiction.
  - pose proof (step_adds_no_token E cfg s ev) as H.
    assert (Hstep : capacity (step E cfg s ev) = capacity s
                    /\ tokens (step E cfg s ev) <= tokens s
                    /\ (rate_manager (step E cfg s ev) = RmCreated
                        -> rate_manager s = RmCreated))
      by (destruct ev; try discriminate; exact H).
    destruct Hstep as (Hcap & Htok & Hpc).
    pose proof (bucket_tokens_nonneg (shared (step E cfg s ev))) as Hpos.
    unfold within_capacity, tokens, capacity in *.
    split; [split|]; auto.
    + unfold within_capacity. lia.
    + intros Hc. specialize (Hnew (Hpc Hc)). unfold tokens. lia.
Qed.

Lemma run_events_bucket_invariant (E : environ) (cfg : config)
    (trace : list event) :
  forall s : system,
    bucket_invariant s ->
    bucket_invariant (run_events E cfg s trace)
    /\ capacity (run_events E cfg s trace) = capacity s.
Proof.
  induction trace as [|ev trace IH]; intros s Hs; simpl.
  - now split.
  - destruct (step_bucket_invariant E cfg s ev Hs) as [Hs' Hcap].
    destruct (IH _ Hs') as [Hinv Hcap']. split; [exact Hinv | congruence].
Qed.

Lemma boot_bucket_invariant (a : init_args) (now : Q) :
  bucket_invariant (boot a now).
Proof.
  unfold bucket_invariant, within_capacity, tokens, bucket_tokens,
    bucket_capacity, boot. simpl.
  destruct (truthy_float (arg_rate_limit a)); simpl; unfold qsize; simpl;
    repeat split; lia.
Qed.

(** C2: in every state the event loop reaches from [__init__], the number
    of tokens lies between 0 and the [maxsize] of the queue (a [maxsize]
    below zero counting as zero: such a queue stays empty), the [maxsize]
    is the one [__init__] gave, and no step other than the rate manager's
    adds a token: dispatching and resuming [_get_token] only remove. *)
Theorem token_bucket_within_capacity (E : environ) (a : init_args) (now : Q)
    (trace : list event) :
  let s := run_events E (init_config a) (boot a now) trace in
  0 <= tokens s <= Z.max 0 (capacity s)
  /\ capacity s = capacity (boot a now)
  /\ forall (cfg : config) (s' : system) (ev : event),
       match ev with
       | RunRateManager => True
       | _ => tokens (step E cfg s' ev) <= tokens s'
       end.
Proof.
  destruct (run_events_bucket_invariant E (init_config a) trace (boot a now)
              (boot_bucket_invariant a now)) as [[Hin _] Hcap].
  split; [exact Hin|]. split; [exact Hcap|].
  intros cfg s' ev. pose proof (step_adds_no_token E cfg s' ev) as H.
  destruct ev; try exact I; apply H.
Qed.

(** ** The penalty box *)

Lemma refill_penalty (cfg : config) (m : state) (now last : Q) :
  retry_after_event (fst (refill cfg m now last)) = retry_after_event m
  /\ retry_after_time (fst (refill cfg m now last)) = retry_after_time m.
Proof.
  unfold refill. destruct (_token_queue m) as [q|]; [|now split].
  destruct (negb (full q || truthy_float (retry_after_time m))); [|now split].
  destruct (rate_limit cfg) as [rate|]; [|now split].
  destruct (time_tokens_exact rate now last) as [exact|]; [|now split].
  destruct (float_max_exceeded exact && Qle_bool exact 0); [now split|].
  destruct (put_range _ 0 q) as [q' err]. now split.
Qed.

Lemma loop_tail_penalty (cfg : config) (m : state) (sleep : option Q)
    (now last : Q) :
  retry_after_event (fst (loop_tail cfg m sleep now last)) = retry_after_event m
  /\ retry_after_time (fst (loop_tail cfg m sleep now last)) = retry_after_time m.
Proof.
  unfold loop_tail. pose proof (refill_penalty cfg m now last) as H.
  destruct (refill cfg m now last) as [m' [e|]]; exact H.
Qed.

Lemma loop_head_released (cfg : config) (m : state) (sleep : option Q)
    (now last : Q) :
  released now m (fst (loop_head cfg m sleep now last)).
Proof.
  unfold loop_head.
  destruct (retry_after_time m) as [t|] eqn:Ht;
    [|left; apply loop_tail_penalty].
  destruct (negb (Qeq_bool t 0));
    [|left; apply loop_tail_penalty].
  destruct (Qle_bool t now) eqn:Hle.
  - right. exists t. split; [exact Ht | now apply Qle_bool_iff].
  - left. now split.
Qed.

Lemma rate_manager_step_released (cfg : config) (now : Q) (m : state)
    (pc : rm_pc) :
  (forall sleep now' last, pc <> RmPenaltySleep sleep now' last) ->
  released now m (fst (rate_manager_step cfg now m pc)).
Proof.
  intros Hpc.
  destruct pc as [|sleep last|sleep now' last|]; simpl.
  - unfold start.
    destruct (negb (truthy_float (rate_limit cfg))); [left; now split|].
    destruct (_sleep_duration cfg) as [sleep| |]; try (left; now split).
    destruct (_token_queue m) as [q|]; [|left; now split].
    destruct (put_range (Z.to_nat (maxsize q)) 0 q) as [q' [e|]];
      [left; now split|].
    exact (loop_head_released cfg (set_queue m q') sleep now now).
  - apply loop_head_released.
  - now destruct (Hpc sleep now' last).
  - left. now split.
Qed.

Lemma rate_manager_step_penalty_sleep (cfg : config) (now : Q) (m : state)
    (sleep : option Q) (now' last : Q) :
  released now m
    (fst (rate_manager_step cfg now m (RmPenaltySleep sleep now' last))).
Proof.
  left. apply loop_tail_penalty.
Qed.

Lemma rate_manager_step_always_released (cfg : config) (now : Q) (m : state)
    (pc : rm_pc) :
  released now m (fst (rate_manager_step cfg now m pc)).
Proof.
  destruct pc as [|sleep last|sleep now' last|].
  - apply rate_manager_step_released. discriminate.
  - apply rate_manager_step_released. discriminate.
  - apply rate_manager_step_penalty_sleep.
  - apply rate_manager_step_released. discriminate.
Qed.

Lemma getters_settle_eq (s : system) (tid : nat) (g : gate) :
  getters (settle s tid g) !! tid
  = Some match g with
         | Passed _ => Acquired (clock s)
         | GateRaises e => Refused e
         | AtEvent => WaitingEvent false
         | AtQueue => WaitingQueue
         end.
Proof.
  destruct g; simpl; apply lookup_insert_eq.
Qed.

Lemma getters_settle_ne (s : system) (tid tid' : nat) (g : gate) :
  tid <> tid' -> getters (settle s tid g) !! tid' = getters s !! tid'.
Proof.
  intros Hne. destruct g; simpl; now apply lookup_insert_ne.
Qed.










(** * Further properties of the code *)

(** ** close and the session *)

(** [close()] returns exactly when some time has passed since construction
    and the rate manager task exists; when it raises instead
    ([ZeroDivisionError] from the throughput line, [AttributeError] from the
    missing task) it has torn nothing down. *)
Theorem close_returns_iff (m : state) (now : Q) :
  (snd (close m now) = Return tt
   <-> ~ (now - _start m == 0)%Q /\ _rate_manager_task m <> None)
  /\ (snd (close m now) <> Return tt -> fst (close m now) = m).
Proof.
  unfold close.
  destruct (Qeq_bool (now - _start m) 0) eqn:Hz.
  - apply Qeq_bool_iff in Hz. simpl. split; [|reflexivity].
    split; [discriminate | intros [Hne _]; contradiction].
  - assert (Hne : ~ (now - _start m == 0)%Q).
    { intros Heq. apply Qeq_bool_iff in Heq. congruence. }
    destruct (_rate_manager_task m) as [t|]; simpl.
    + split; [|intros Hno; now destruct Hno].
      split; [intros _; split; [exact Hne | discriminate] | reflexivity].
    + split; [|reflexivity].
      split; [discriminate | intros [_ Hno]; now destruct Hno].
Qed.

(** A [close()] that returns leaves no session, has asked the task to
    cancel, and has called [session.close()] once if there was an open
    session; it touches neither the counter, nor the bucket, nor the
    penalty box: the event is not set for those who wait on it. *)
Theorem close_tears_down (m m1 : state) (now : Q)
    (H : close m now = (m1, Return tt)) :
  __session m1 = None
  /\ _rate_manager_task m1 = Some {| cancel_requested := true |}
  /\ session_closes m1
     = (session_closes m
        + match __session m with
          | Some s => if closed s then 0 else 1
          | None => 0
          end)%nat
  /\ _requests m1 = _requests m
  /\ _token_queue m1 = _token_queue m
  /\ retry_after_event m1 = retry_after_event m
  /\ retry_after_time m1 = retry_after_time m.
Proof.
  unfold close in H.
  destruct (Qeq_bool (now - _start m) 0); [discriminate|].
  destruct (_rate_manager_task m) as [t|]; [|discriminate].
  injection H as <-.
  destruct (__session m) as [[[|]]|] eqn:Hs; simpl; rewrite ?Hs; simpl;
    repeat split; lia.
Qed.

Lemma close_tears_down_witness :
  let m := session (filled default_args 1) in
  let m1 := fst (close m 5) in
  close m 5 = (m1, Return tt)
  /\ __session m1 = None
  /\ _rate_manager_task m1 = Some {| cancel_requested := true |}
  /\ session_closes m1 = (session_closes m + 1)%nat
  /\ _requests m1 = _requests m
  /\ _token_queue m1 = _token_queue m
  /\ retry_after_event m1 = retry_after_event m
  /\ retry_after_time m1 = retry_after_time m.
Proof.
  split; [reflexivity|].
  apply (close_tears_down (session (filled default_args 1)) _ 5).
  reflexivity.
Defined.

(** The [session] property creates a session only when there is none: an
    existing one, open or closed, is handed out again, and reading the
    property twice is reading it once.  The new session is built on the
    manager's connector and is as closed as that is. *)
Theorem session_reused (m : state) :
  session (session m) = session m
  /\ __session (session m) <> None
  /\ connector_closed (session m) = connector_closed m
  /\ match __session m with
     | Some _ => session m = m
     | None => __session (session m) = Some {| closed := connector_closed m |}
     end.
Proof.
  unfold session. destruct (__session m) as [s|] eqn:Hs; simpl; rewrite ?Hs.
  - repeat split. congruence.
  - repeat split. discriminate.
Qed.

Lemma close_connector (m m1 : state) (now : Q) :
  close m now = (m1, Return tt) ->
  connector_closed m1
  = connector_closed m
    || match __session m with
       | Some s => negb (closed s)
       | None => false
       end.
Proof.
  unfold close. intros H.
  destruct (Qeq_bool (now - _start m) 0); [discriminate|].
  destruct (_rate_manager_task m) as [t|]; [|discriminate].
  injection H as <-.
  destruct (__session m) as [[[|]]|] eqn:Hs; simpl; rewrite ?Hs; simpl;
    now rewrite ?orb_true_r, ?orb_false_r.
Qed.

(** After a [close()] that returned, the next read of [session] builds a
    new session on the same connector: when [close()] found an open
    session, it closed the connector with it, and the new session is closed
    from the start. *)
Theorem session_after_close (m m1 : state) (now : Q)
    (H : close m now = (m1, Return tt)) :
  __session (session m1) = Some {| closed := connector_closed m1 |}
  /\ connector_closed m1
     = connector_closed m
       || match __session m with
          | Some s => negb (closed s)
          | None => false
          end
  /\ session_closes (session m1) = session_closes m1
  /\ _rate_manager_task (session m1) = Some {| cancel_requested := true |}.
Proof.
  pose proof (close_connector m m1 now H) as Hc.
  assert (Hdown : __session m1 = None
                  /\ _rate_manager_task m1 = Some {| cancel_requested := true |}).
  { unfold close in H.
    destruct (Qeq_bool (now - _start m) 0); [discriminate|].
    destruct (_rate_manager_task m) as [t|]; [|discriminate].
    injection H as <-.
    destruct (__session m) as [[[|]]|] eqn:Hs; simpl; rewrite ?Hs; simpl;
      now split. }
  destruct Hdown as [Hs Ht].
  unfold session. rewrite Hs. simpl. repeat split; assumption.
Qed.

Lemma session_after_close_witness :
  let m := session (filled default_args 1) in
  let m1 := fst (close m 5) in
  close m 5 = (m1, Return tt)
  /\ __session m = Some {| closed := false |}
  /\ __session (session m1) = Some {| closed := true |}
  /\ connector_closed m1 = true
  /\ session_closes (session m1) = session_closes m1
  /\ _rate_manager_task (session m1) = Some {| cancel_requested := true |}.
Proof.
  split; [reflexivity|]. split; [reflexivity|].
  destruct (session_after_close (session (filled default_args 1)) _ 5 eq_refl)
    as (Hnew & Hconn & Hcount & Htask).
  split; [exact Hnew|]. split; [exact Hconn|]. split; [exact Hcount|].
  exact Htask.
Defined.

(** ** _sleep_duration *)



(** ** request: budget and outcome *)

Section RequestOutcome.

Variable E : environ.
Variable cfg : config.
Variable envs : Z -> attempt_env.

Lemma request_loop_count (left : nat) :
  forall (n : Z) (m : state) (log : list attempt),
    Z.of_nat (length (attempts (request_loop left E cfg envs n m log)))
    - Z.of_nat (length log)
    = requests (request_loop left E cfg envs n m log) - n
    /\ n <= requests (request_loop left E cfg envs n m log) <= n + Z.of_nat left
    /\ (left <> 0%nat -> n < requests (request_loop left E cfg envs n m log)).
Proof.
  induction left as [|left IH]; intros n m log.
  - simpl. repeat split; lia.
  - cbn [request_loop].
    destruct (try_body E cfg (set_requests m (_requests m + 1)) (envs (n + 1)))
      as [m' a].
    assert (Hstop : forall r : run,
              requests r = n + 1 -> attempts r = log ++ [a] ->
              Z.of_nat (length (attempts r)) - Z.of_nat (length log)
              = requests r - n
              /\ n <= requests r <= n + Z.of_nat (S left)
              /\ (S left <> 0%nat -> n < requests r)).
    { intros r -> ->. rewrite length_app. simpl. repeat split; lia. }
    assert (Hgo : Z.of_nat (length (attempts
                     (request_loop left E cfg envs (n + 1) m' (log ++ [a]))))
                  - Z.of_nat (length log)
                  = requests (request_loop left E cfg envs (n + 1) m' (log ++ [a]))
                    - n
                  /\ n <= requests (request_loop left E cfg envs (n + 1) m'
                                      (log ++ [a])) <= n + Z.of_nat (S left)
                  /\ (S left <> 0%nat ->
                      n < requests (request_loop left E cfg envs (n + 1) m'
                                      (log ++ [a])))).
    { destruct (IH (n + 1) m' (log ++ [a])) as (Hlen & Hreq & _).
      rewrite length_app in Hlen. simpl in Hlen. repeat split; lia. }
    destruct a as [v| |e|]; try (now apply Hstop); try exact Hgo.
    destruct (is_Exception e && should_retry cfg e); [exact Hgo | now apply Hstop].
Qed.

(** [retries] bounds the attempts of one call, retried or not: the loop
    runs at least once and at most [retries] times, and a budget of zero or
    less sends nothing and raises [RetriesExceededError] at once. *)
Theorem request_attempts_bounded (m : state) :
  Z.of_nat (length (attempts (request E cfg m envs)))
  = requests (request E cfg m envs)
  /\ 0 <= requests (request E cfg m envs) <= Z.max 0 (retries cfg)
  /\ (0 < retries cfg -> 1 <= requests (request E cfg m envs))
  /\ (retries cfg <= 0 ->
      request E cfg m envs
      = {| final := m; result := Raise RetriesExceededError;
           requests := 0; attempts := [] |}).
Proof.
  unfold request.
  destruct (request_loop_count (Z.to_nat (retries cfg)) 0 m [])
    as (Hlen & Hreq & Hfirst).
  simpl in Hlen. repeat split; try lia.
  intros Hno. replace (Z.to_nat (retries cfg)) with 0%nat by lia. reflexivity.
Qed.

Lemma request_loop_budget (left : nat) :
  forall (n : Z) (m : state) (log : list attempt),
    Forall (goes_on cfg) (attempts (request_loop left E cfg envs n m [])) ->
    result (request_loop left E cfg envs n m log) = Raise RetriesExceededError
    /\ requests (request_loop left E cfg envs n m log) = n + Z.of_nat left.
Proof.
  induction left as [|left IH]; intros n m log; simpl.
  - intros _. split; [reflexivity | lia].
  - destruct (try_body E cfg (set_requests m (_requests m + 1)) (envs (n + 1)))
      as [m' a].
    destruct a as [v| |e|]; simpl.
    + intros Hall. apply Forall_cons in Hall as [[Hno | (e & Hno & _)] _];
        discriminate.
    + rewrite attempts_request_loop. intros Hall.
      apply Forall_cons in Hall as [_ Hall].
      destruct (IH (n + 1) m' (log ++ [Throttled]) Hall) as [-> ->].
      split; [reflexivity | lia].
    + destruct (is_Exception e && should_retry cfg e) eqn:Hre; simpl.
      * rewrite attempts_request_loop. intros Hall.
        apply Forall_cons in Hall as [_ Hall].
        destruct (IH (n + 1) m' (log ++ [Raised e]) Hall) as [-> ->].
        split; [reflexivity | lia].
      * intros Hall.
        apply Forall_cons in Hall as [[Hno | (e' & [= <-] & Hyes)] _];
          [discriminate | congruence].
    + intros Hall. apply Forall_cons in Hall as [[Hno | (e & Hno & _)] _];
        discriminate.
Qed.

(** A handled 429 counts against the budget like a retried failure: when
    every attempt ends in a 429 or in an exception the predicate accepts,
    the call raises [RetriesExceededError] after [retries] attempts. *)
Theorem request_budget_exhausted (m : state)
    (Hretries : 0 <= retries cfg)
    (Hall : Forall (goes_on cfg) (attempts (request E cfg m envs))) :
  result (request E cfg m envs) = Raise RetriesExceededError
  /\ requests (request E cfg m envs) = retries cfg.
Proof.
  unfold request in *.
  destruct (request_loop_budget _ 0 m [] Hall) as [-> ->].
  split; [reflexivity | lia].
Qed.

Lemma request_loop_last (left : nat) :
  forall (n : Z) (m : state),
    let r := request_loop left E cfg envs n m [] in
    match last (attempts r) with
    | None => left = 0%nat /\ result r = Raise RetriesExceededError
    | Some (Returned resp_json) => result r = Return resp_json
    | Some Stuck => result r = Pending
    | Some Throttled =>
        result r = Raise RetriesExceededError /\ requests r = n + Z.of_nat left
    | Some (Raised e) =>
        if is_Exception e && should_retry cfg e
        then result r = Raise RetriesExceededError
             /\ requests r = n + Z.of_nat left
        else result r = Raise e
    end.
Proof.
  induction left as [|left IH]; intros n m; simpl.
  - now split.
  - destruct (try_body E cfg (set_requests m (_requests m + 1)) (envs (n + 1)))
      as [m' a].
    assert (Hgo : forall r',
              r' = request_loop left E cfg envs (n + 1) m' [a] ->
              goes_on cfg a ->
              match last (attempts r') with
              | None => S left = 0%nat /\ result r' = Raise RetriesExceededError
              | Some (Returned resp_json) => result r' = Return resp_json
              | Some Stuck => result r' = Pending
              | Some Throttled =>
                  result r' = Raise RetriesExceededError
                  /\ requests r' = n + Z.of_nat (S left)
              | Some (Raised e) =>
                  if is_Exception e && should_retry cfg e
                  then result r' = Raise RetriesExceededError
                       /\ requests r' = n + Z.of_nat (S left)
                  else result r' = Raise e
              end).
    { intros r' -> Hon. specialize (IH (n + 1) m'). simpl in IH.
      pose proof (request_loop_budget left (n + 1) m' [a]) as Hbudget.
      rewrite attempts_request_loop.
      assert (Hres : result (request_loop left E cfg envs (n + 1) m' [a])
                     = result (request_loop left E cfg envs (n + 1) m' [])
                     /\ requests (request_loop left E cfg envs (n + 1) m' [a])
                        = requests (request_loop left E cfg envs (n + 1) m' [])).
      { clear. revert n m'. generalize [a]. generalize (@nil attempt).
        induction left as [|left IHl]; intros l1 l2 n m'; simpl; [now split|].
        destruct (try_body E cfg (set_requests m' (_requests m' + 1))
                    (envs (n + 1 + 1))) as [m'' a'].
        destruct a' as [v| |e|]; simpl; try (now split); try apply IHl.
        destruct (is_Exception e && should_retry cfg e); [apply IHl | now split]. }
      destruct Hres as [-> ->].
      destruct (attempts (request_loop left E cfg envs (n + 1) m' [])) as [|b rest]
        eqn:Hrest.
      - simpl. destruct IH as [-> Hres]. simpl in *.
        destruct Hon as [-> | (e & -> & Hre)]; [|rewrite Hre];
          (split; [reflexivity | lia]).
      - change ([a] ++ b :: rest) with (a :: b :: rest). rewrite last_cons.
        destruct (last (b :: rest)) as [c|] eqn:Hlast.
        + destruct c as [v| |e|]; try exact IH.
          * destruct IH as [-> ->]. split; [reflexivity | lia].
          * destruct (is_Exception e && should_retry cfg e); [|exact IH].
            destruct IH as [-> ->]. split; [reflexivity | lia].
        + destruct IH as [-> _]. discriminate Hrest. }
    destruct a as [v| |e|]; simpl; try reflexivity.
    + apply Hgo; [reflexivity | now left].
    + destruct (is_Exception e && should_retry cfg e) eqn:Hre.
      * apply Hgo; [reflexivity | right; eauto].
      * simpl. now rewrite Hre.
Qed.

(** The outcome of [request] is that of its last attempt: the decoded body
    it returned, the exception the predicate declined, or, when the last
    attempt was a 429 or a failure the predicate accepted,
    [RetriesExceededError] with the budget used up.  Every earlier attempt
    was a 429 or an accepted failure. *)
Theorem request_outcome (m : state) :
  let r := request E cfg m envs in
  match last (attempts r) with
  | None => retries cfg <= 0 /\ result r = Raise RetriesExceededError
  | Some (Returned resp_json) => result r = Return resp_json
  | Some Stuck => result r = Pending
  | Some Throttled =>
      result r = Raise RetriesExceededError /\ requests r = retries cfg
  | Some (Raised e) =>
      if is_Exception e && should_retry cfg e
      then result r = Raise RetriesExceededError /\ requests r = retries cfg
      else result r = Raise e
  end
  /\ forall a, retried a r -> goes_on cfg a.
Proof.
  split.
  - pose proof (request_loop_last (Z.to_nat (retries cfg)) 0 m) as H.
    unfold request.
    destruct (Z.to_nat (retries cfg)) as [|left] eqn:Hn.
    + simpl. split; [lia | reflexivity].
    + cbv zeta in H.
      destruct (last (attempts (request_loop (S left) E cfg envs 0 m [])))
        as [[v| |e|]|]; try exact H.
      * destruct H as [-> ->]. split; [reflexivity | lia].
      * destruct (is_Exception e && should_retry cfg e); [|exact H].
        destruct H as [-> ->]. split; [reflexivity | lia].
      * now destruct H.
  - intros a Hr. apply request_loop_retried in Hr. exact Hr.
Qed.

End RequestOutcome.

Lemma request_budget_exhausted_witness :
  let cfg := init_config default_args in
  let envs := fun _ : Z => quiet (replies 429 (Some "7"%string) "") 2 in
  let r := request aiorm cfg (filled default_args 1) envs in
  attempts r = [Throttled; Throttled; Throttled]
  /\ result r = Raise RetriesExceededError
  /\ requests r = 3.
Proof.
  split; [reflexivity|].
  apply (request_budget_exhausted aiorm (init_config default_args)
           (fun _ : Z => quiet (replies 429 (Some "7"%string) "") 2)
           (filled default_args 1)).
  - simpl. lia.
  - replace (attempts _) with [Throttled; Throttled; Throttled] by reflexivity.
    repeat constructor.
Defined.

(** ** request: the response *)

Section Response.

Variable E : environ.
Variable cfg : config.
Variable envs : Z -> attempt_env.

(** The first iteration, once [_get_token] has let the caller through and
    the transport has answered. *)
Lemma first_attempt_responds (m m1 : state) (resp : response) :
  _get_token E cfg (set_requests m (_requests m + 1)) (wake (envs 1))
  = (m1, Return tt) ->
  send (envs 1) = Responds resp ->
  try_body E cfg (set_requests m (_requests m + 1)) (envs 1)
  = on_response E cfg (others (envs 1) (session m1)) (monotonic (envs 1))
      (utcnow (envs 1)) resp.
Proof.
  intros Hgate Hsend. unfold try_body. now rewrite Hgate, Hsend.
Qed.

(** An empty body is never handed to the deserializer: with a status below
    400 the call returns the empty dict at the first attempt, whatever
    [json_deserialize] would do. *)
Theorem request_empty_body (m m1 : state) (resp : response)
    (Hretries : 0 < retries cfg)
    (Hgate : _get_token E cfg (set_requests m (_requests m + 1)) (wake (envs 1))
             = (m1, Return tt))
    (Hsend : send (envs 1) = Responds resp)
    (Hbody : text resp = ""%string)
    (Hstatus : status resp < 400) :
  result (request E cfg m envs) = Return VEmptyDict
  /\ requests (request E cfg m envs) = 1.
Proof.
  unfold request.
  destruct (Z.to_nat (retries cfg)) as [|left] eqn:Hleft; [lia|].
  cbn [request_loop]. change (0 + 1) with 1.
  rewrite (first_attempt_responds m m1 resp Hgate Hsend).
  unfold on_response. rewrite Hbody. simpl.
  destruct (status resp =? 429) eqn:H429; [lia|].
  destruct (400 <=? status resp) eqn:H400; [lia|].
  now split.
Qed.

(** The body is decoded before the status is looked at: when the
    deserializer raises and the predicate declines that exception, the call
    ends with it at the first attempt whatever the status, so that a 429
    with such a body leaves the penalty box as it was. *)
Theorem request_undecodable_body (m m1 : state) (resp : response) (e : exn)
    (Hretries : 0 < retries cfg)
    (Hgate : _get_token E cfg (set_requests m (_requests m + 1)) (wake (envs 1))
             = (m1, Return tt))
    (Hsend : send (envs 1) = Responds resp)
    (Hbody : text resp <> ""%string)
    (Hdecode : json_deserialize cfg (text resp) = Raise e)
    (Hdecline : should_retry cfg e = false) :
  result (request E cfg m envs) = Raise e
  /\ requests (request E cfg m envs) = 1
  /\ final (request E cfg m envs) = others (envs 1) (session m1).
Proof.
  unfold request.
  destruct (Z.to_nat (retries cfg)) as [|left] eqn:Hleft; [lia|].
  rewrite (request_loop_propagates E cfg envs left 0 m
             (others (envs 1) (session m1)) [] e).
  - repeat split.
  - change (0 + 1) with 1.
    rewrite (first_attempt_responds m m1 resp Hgate Hsend).
    unfold on_response.
    destruct (String.eqb (text resp) "") eqn:Hempty;
      [apply String.eqb_eq in Hempty; contradiction|].
    now rewrite Hdecode.
  - rewrite Hdecline. apply andb_false_r.
Qed.

End Response.

Lemma request_empty_body_witness :
  let cfg := init_config default_args in
  let envs := fun _ : Z => quiet (replies 204 None "") 2 in
  let r := request aiorm cfg (filled default_args 1) envs in
  sample_loads "" = Raise JSONDecodeError
  /\ result r = Return VEmptyDict
  /\ requests r = 1.
Proof.
  split; [reflexivity|].
  apply (request_empty_body aiorm (init_config default_args)
           (fun _ : Z => quiet (replies 204 None "") 2) (filled default_args 1)
           (fst (_get_token aiorm (init_config default_args)
                   (set_requests (filled default_args 1) 1) Some))
           {| status := 204; retry_after := None; text := "" |}).
  - simpl. lia.
  - reflexivity.
  - reflexivity.
  - reflexivity.
  - simpl. lia.
Defined.

Lemma request_undecodable_body_witness :
  let cfg := init_config default_args in
  let envs := fun _ : Z =>
                quiet (replies 429 (Some "7"%string) "<html>Slow down</html>") 2 in
  let r := request aiorm cfg (filled default_args 1) envs in
  result r = Raise JSONDecodeError
  /\ requests r = 1
  /\ retry_after_event (final r) = true
  /\ retry_after_time (final r) = None.
Proof.
  pose proof (request_undecodable_body aiorm (init_config default_args)
           (fun _ : Z =>
              quiet (replies 429 (Some "7"%string) "<html>Slow down</html>") 2)
           (filled default_args 1)
           (fst (_get_token aiorm (init_config default_args)
                   (set_requests (filled default_args 1) 1) Some))
           {| status := 429; retry_after := Some "7"%string;
              text := "<html>Slow down</html>" |} JSONDecodeError) as H.
  destruct H as (Hres & Hreq & Hfinal).
  - simpl. lia.
  - reflexivity.
  - reflexivity.
  - discriminate.
  - reflexivity.
  - reflexivity.
  - split; [exact Hres|]. split; [exact Hreq|].
    rewrite Hfinal. split; reflexivity.
Defined.

(** ** The 429 handler in the module's namespace *)


(** ** The event loop from construction on *)

Lemma take_token_queue (m : state) :
  match take_token m with
  | Passed m' => is_Some (_token_queue m) /\ is_Some (_token_queue m')
  | GateRaises _ => _token_queue m = None
  | AtEvent => False
  | AtQueue => is_Some (_token_queue m)
  end.
Proof.
  unfold take_token. destruct (_token_queue m) as [q|]; [|reflexivity].
  destruct (items q); simpl; eauto.
Qed.

Lemma refill_queue (cfg : config) (m : state) (now last : Q) :
  is_Some (_token_queue (fst (refill cfg m now last)))
  <-> is_Some (_token_queue m).
Proof.
  unfold refill. destruct (_token_queue m) as [q|] eqn:Hq;
    [|simpl; now rewrite Hq].
  destruct (negb (full q || truthy_float (retry_after_time m)));
    [|simpl; now rewrite Hq].
  destruct (rate_limit cfg) as [rate|]; [|simpl; now rewrite Hq].
  destruct (time_tokens_exact rate now last) as [exact|];
    [|simpl; now rewrite Hq].
  destruct (float_max_exceeded exact && Qle_bool exact 0);
    [simpl; now rewrite Hq|].
  destruct (put_range _ 0 q) as [q' err]. simpl. split; eauto.
Qed.

Lemma rate_manager_step_queue (cfg : config) (now : Q) (m : state) (pc : rm_pc) :
  is_Some (_token_queue (fst (rate_manager_step cfg now m pc)))
  <-> is_Some (_token_queue m).
Proof.
  assert (Htail : forall m0 sleep now0 last,
            is_Some (_token_queue (fst (loop_tail cfg m0 sleep now0 last)))
            <-> is_Some (_token_queue m0)).
  { intros m0 sleep now0 last. unfold loop_tail.
    pose proof (refill_queue cfg m0 now0 last) as H.
    now destruct (refill cfg m0 now0 last) as [m' [e|]]. }
  assert (Hhead : forall m0 sleep now0 last,
            is_Some (_token_queue (fst (loop_head cfg m0 sleep now0 last)))
            <-> is_Some (_token_queue m0)).
  { intros m0 sleep now0 last. unfold loop_head.
    destruct (retry_after_time m0) as [t|]; [|apply Htail].
    destruct (negb (Qeq_bool t 0)); [|apply Htail].
    destruct (Qle_bool t now0); [|reflexivity].
    rewrite Htail. reflexivity. }
  destruct pc as [|sleep last|sleep now' last|]; simpl; try reflexivity;
    try apply Hhead; try apply Htail.
  unfold start.
  destruct (negb (truthy_float (rate_limit cfg))); [reflexivity|].
  destruct (_sleep_duration cfg) as [sleep| |]; try reflexivity.
  destruct (_token_queue m) as [q|] eqn:Hq; [|simpl; now rewrite Hq].
  destruct (put_range (Z.to_nat (maxsize q)) 0 q) as [q' [e|]].
  - simpl. split; eauto.
  - rewrite Hhead. simpl. split; eauto.
Qed.

(** No step makes the queue appear or vanish. *)
Lemma step_queue (E : environ) (cfg : config) (s : system) (ev : event) :
  is_Some (_token_queue (shared (step E cfg s ev)))
  <-> is_Some (_token_queue (shared s)).
Proof.
  assert (Hsettle : forall s0 tid g,
            match g with
            | Passed m' => is_Some (_token_queue m')
                           <-> is_Some (_token_queue (shared s0))
            | _ => True
            end ->
            is_Some (_token_queue (shared (settle s0 tid g)))
            <-> is_Some (_token_queue (shared s0))).
  { intros s0 tid g Hg. rewrite shared_settle.
    destruct g; try reflexivity. exact Hg. }
  assert (Htake : forall m,
            match take_token m with
            | Passed m' => is_Some (_token_queue m') <-> is_Some (_token_queue m)
            | _ => True
            end).
  { intros m. pose proof (take_token_queue m) as H.
    destruct (take_token m); try exact I. tauto. }
  destruct ev as [t| | |tid|tid|header utc]; simpl; try reflexivity.
  - pose proof (rate_manager_step_queue cfg (clock s) (shared s) (rate_manager s)).
    now destruct (rate_manager_step cfg (clock s) (shared s) (rate_manager s)).
  - now destruct (_rate_manager_task (shared s)).
  - destruct (getters s !! tid); [reflexivity|].
    set (m := set_requests (shared s) (_requests (shared s) + 1)).
    apply (Hsettle (with_shared s m)).
    unfold enter_get_token.
    destruct (truthy _ && int_eq _ _).
    + destruct (load_name (globals E) "MaximumRequestsExceeded"); try exact I;
        destruct (load_name (globals E) "self_requests"); exact I.
    + destruct (truthy_float (rate_limit cfg)).
      * destruct (retry_after_event m); [apply Htake | exact I].
      * reflexivity.
  - destruct (getters s !! tid) as [[[|]| | |]|]; try reflexivity;
      apply Hsettle, Htake.
  - destruct (throttle_penalty E cfg (shared s) (clock s) utc header)
      as [-> | (t & ->)]; reflexivity.
Qed.

Lemma run_events_queue (E : environ) (cfg : config) (trace : list event) :
  forall s : system,
    is_Some (_token_queue (shared (run_events E cfg s trace)))
    <-> is_Some (_token_queue (shared s)).
Proof.
  induction trace as [|ev trace IH]; intros s; simpl; [reflexivity|].
  rewrite IH. apply step_queue.
Qed.

Lemma boot_queue (a : init_args) (now : Q) :
  is_Some (_token_queue (shared (boot a now)))
  <-> truthy_float (arg_rate_limit a) = true.
Proof.
  simpl. destruct (truthy_float (arg_rate_limit a)).
  - split; eauto.
  - split; [intros [q Hq]; discriminate | discriminate].
Qed.

(** What [_get_token] does on a manager as [__init__] leaves it: there is
    no ceiling, and the queue is there when the rate limit is. *)
Lemma enter_get_token_fresh (E : environ) (a : init_args) (m : state) :
  (is_Some (_token_queue m) <-> truthy_float (arg_rate_limit a) = true) ->
  match enter_get_token E (init_config a) m with
  | Passed m' =>
      if truthy_float (arg_rate_limit a)
      then retry_after_event m = true /\ take_token m = Passed m'
      else m' = m
  | GateRaises _ => False
  | AtEvent =>
      truthy_float (arg_rate_limit a) = true /\ retry_after_event m = false
  | AtQueue =>
      truthy_float (arg_rate_limit a) = true /\ retry_after_event m = true
      /\ take_token m = AtQueue
  end.
Proof.
  intros Hq. rewrite get_token_without_ceiling by reflexivity. simpl.
  destruct (truthy_float (arg_rate_limit a)); [|reflexivity].
  destruct (retry_after_event m); [|now split].
  pose proof (take_token_queue m) as H.
  destruct (take_token m) as [m'|e| |]; try tauto.
  destruct Hq as [_ Hq]. destruct (Hq eq_refl) as [q Hsome]. congruence.
Qed.

Section FromInit.

Variable E : environ.
Variable a : init_args.
Variable now0 : Q.

Let cfg := init_config a.

(** The counter [self._requests] counts the calls of [_get_token], whether
    they have returned or still wait. *)
Theorem dispatches_counted (trace : list event) :
  _requests (shared (run_events E cfg (boot a now0) trace))
  = Z.of_nat (size (getters (run_events E cfg (boot a now0) trace))).
Proof.
  assert (Hstep : forall s ev,
            _requests (shared s) = Z.of_nat (size (getters s)) ->
            _requests (shared (step E cfg s ev))
            = Z.of_nat (size (getters (step E cfg s ev)))).
  { intros s ev Hs.
    assert (Hresume : forall tid, is_Some (getters s !! tid) ->
              _requests (shared (settle s tid (take_token (shared s))))
              = Z.of_nat (size (getters (settle s tid (take_token (shared s)))))).
    { intros tid Hin. rewrite shared_settle.
      pose proof (take_token_requests (shared s)) as Hreq.
      destruct (take_token (shared s)) as [m'|e| |]; simpl;
        rewrite map_size_insert_Some by exact Hin; congruence. }
    destruct ev as [t| | |tid|tid|header utc]; simpl; try exact Hs.
    - pose proof (rate_manager_step_always_released cfg (clock s) (shared s)
                    (rate_manager s)) as _.
      assert (Hreq : _requests (fst (rate_manager_step cfg (clock s) (shared s)
                                       (rate_manager s)))
                     = _requests (shared s)).
      { assert (Hfill : forall m0 now last,
                  _requests (fst (refill cfg m0 now last)) = _requests m0).
        { intros m0 now last. unfold refill.
          destruct (_token_queue m0) as [q|]; [|reflexivity].
          destruct (negb (full q || truthy_float (retry_after_time m0)));
            [|reflexivity].
          destruct (rate_limit cfg) as [rate|]; [|reflexivity].
          destruct (time_tokens_exact rate now last) as [exact|];
            [|reflexivity].
          destruct (float_max_exceeded exact && Qle_bool exact 0);
            [reflexivity|].
          now destruct (put_range _ 0 q). }
        assert (Htail : forall m0 sleep now last,
                  _requests (fst (loop_tail cfg m0 sleep now last)) = _requests m0).
        { intros m0 sleep now last. unfold loop_tail.
          specialize (Hfill m0 now last).
          now destruct (refill cfg m0 now last) as [m' [e|]]. }
        assert (Hhead : forall m0 sleep now last,
                  _requests (fst (loop_head cfg m0 sleep now last)) = _requests m0).
        { intros m0 sleep now last. unfold loop_head.
          destruct (retry_after_time m0) as [t|]; [|apply Htail].
          destruct (negb (Qeq_bool t 0)); [|apply Htail].
          destruct (Qle_bool t now); [|reflexivity]. now rewrite Htail. }
        destruct (rate_manager s) as [|sleep last|sleep now' last|]; simpl;
          try reflexivity; try apply Hhead; try apply Htail.
        unfold start.
        destruct (negb (truthy_float (rate_limit cfg))); [reflexivity|].
        destruct (_sleep_duration cfg) as [sleep| |]; try reflexivity.
        destruct (_token_queue (shared s)) as [q|]; [|reflexivity].
        destruct (put_range (Z.to_nat (maxsize q)) 0 q) as [q' [e|]];
          [reflexivity|]. now rewrite Hhead. }
      destruct (rate_manager_step cfg (clock s) (shared s) (rate_manager s))
        as [m pc]. simpl in *. rewrite Hreq, Hs.
      destruct (negb (retry_after_event (shared s)) && retry_after_event m);
        [now rewrite map_size_fmap | reflexivity].
    - now destruct (_rate_manager_task (shared s)).
    - destruct (getters s !! tid) eqn:Hg; [exact Hs|].
      set (m := set_requests (shared s) (_requests (shared s) + 1)).
      rewrite shared_settle.
      pose proof (enter_get_token_requests E cfg m) as Hreq.
      destruct (enter_get_token E cfg m) as [m'|e| |]; simpl;
        rewrite map_size_insert_None by exact Hg;
        rewrite ?Hreq; simpl; lia.
    - destruct (getters s !! tid) as [[[|]| | |]|] eqn:Hg; try exact Hs;
        apply Hresume; rewrite Hg; eauto.
    - destruct (throttle_penalty E cfg (shared s) (clock s) utc header)
        as [-> | (t & ->)]; exact Hs. }
  assert (Hboot : _requests (shared (boot a now0))
                  = Z.of_nat (size (getters (boot a now0))))
    by (simpl; now rewrite map_size_empty).
  revert Hboot. generalize (boot a now0).
  induction trace as [|ev trace IH]; intros s Hs; simpl; [exact Hs|].
  apply IH, Hstep, Hs.
Qed.

Lemma step_sound_getters (s : system) (ev : event) :
  (is_Some (_token_queue (shared s))
   <-> truthy_float (arg_rate_limit a) = true) ->
  (forall tid g, getters s !! tid = Some g ->
                 sound_getter (truthy_float (arg_rate_limit a)) g) ->
  forall tid g, getters (step E cfg s ev) !! tid = Some g ->
                sound_getter (truthy_float (arg_rate_limit a)) g.
Proof.
  intros Hq Hs tid' g'.
  assert (Hsettle : forall s0 tid g,
            getters s0 = getters s ->
            sound_getter (truthy_float (arg_rate_limit a))
              match g with
              | Passed _ => Acquired (clock s0)
              | GateRaises e => Refused e
              | AtEvent => WaitingEvent false
              | AtQueue => WaitingQueue
              end ->
            getters (settle s0 tid g) !! tid' = Some g' ->
            sound_getter (truthy_float (arg_rate_limit a)) g').
  { intros s0 tid0 g Hg0 Hg.
    destruct (decide (tid0 = tid')) as [<- | Hne].
    - rewrite getters_settle_eq. now intros [= <-].
    - rewrite getters_settle_ne by exact Hne. rewrite Hg0. apply Hs. }
  destruct ev as [t| | |tid|tid|header utc]; simpl; try apply Hs.
  - destruct (rate_manager_step cfg (clock s) (shared s) (rate_manager s))
      as [m pc]. simpl.
    destruct (negb (retry_after_event (shared s)) && retry_after_event m);
      [|apply Hs].
    rewrite lookup_fmap. specialize (Hs tid').
    destruct (getters s !! tid') as [[w| | |]|]; simpl; intros [= <-];
      now apply (Hs _ eq_refl).
  - destruct (_rate_manager_task (shared s)); apply Hs.
  - destruct (getters s !! tid); [apply Hs|].
    set (m := set_requests (shared s) (_requests (shared s) + 1)).
    apply Hsettle; [reflexivity|].
    pose proof (enter_get_token_fresh E a m Hq) as H. fold cfg in H.
    destruct (enter_get_token E cfg m); simpl; tauto.
  - destruct (getters s !! tid) as [g|] eqn:Hg; [|apply Hs].
    pose proof (Hs tid g Hg) as Hsound.
    pose proof (take_token_queue (shared s)) as H.
    assert (Hlimited : sound_getter (truthy_float (arg_rate_limit a))
                         match take_token (shared s) with
                         | Passed _ => Acquired (clock s)
                         | GateRaises e => Refused e
                         | AtEvent => WaitingEvent false
                         | AtQueue => WaitingQueue
                         end
                       \/ truthy_float (arg_rate_limit a) = false).
    { destruct (truthy_float (arg_rate_limit a)) eqn:Hrate; [left|now right].
      destruct (take_token (shared s)); simpl; try tauto.
      destruct Hq as [_ Hq]. destruct (Hq eq_refl) as [q Hsome]. congruence. }
    destruct g as [[|]| | |]; try apply Hs; simpl in Hsound;
      (destruct Hlimited as [Hl | Hl]; [now apply Hsettle | congruence]).
Qed.

Lemma run_events_sound_getters (trace : list event) :
  forall tid g,
    getters (run_events E cfg (boot a now0) trace) !! tid = Some g ->
    sound_getter (truthy_float (arg_rate_limit a)) g.
Proof.
  assert (Hgen : forall s,
            (is_Some (_token_queue (shared s))
             <-> truthy_float (arg_rate_limit a) = true) ->
            (forall tid g, getters s !! tid = Some g ->
                           sound_getter (truthy_float (arg_rate_limit a)) g) ->
            forall tid g,
              getters (run_events E cfg s trace) !! tid = Some g ->
              sound_getter (truthy_float (arg_rate_limit a)) g).
  { induction trace as [|ev trace IH]; intros s Hq Hs; simpl; [exact Hs|].
    apply IH.
    - rewrite step_queue. exact Hq.
    - now apply step_sound_getters. }
  apply Hgen; [apply boot_queue|].
  intros tid g. simpl. rewrite lookup_empty. discriminate.
Qed.

(** On a manager as [__init__] leaves it [_get_token] never raises: every
    call has returned or waits. *)
Theorem get_token_never_raises (trace : list event) (tid : nat) (e : exn) :
  getters (run_events E cfg (boot a now0) trace) !! tid <> Some (Refused e).
Proof.
  intros H. exact (run_events_sound_getters trace tid _ H).
Qed.

(** Without a rate limit no call of [_get_token] ever waits, not even while
    a penalty is in force: every call has returned. *)
Theorem unlimited_never_waits (trace : list event) (tid : nat) (g : getter)
    (Hoff : truthy_float (arg_rate_limit a) = false)
    (Hg : getters (run_events E cfg (boot a now0) trace) !! tid = Some g) :
  exists t, g = Acquired t.
Proof.
  pose proof (run_events_sound_getters trace tid g Hg) as H.
  rewrite Hoff in H. destruct g; simpl in H; try discriminate; eauto.
  contradiction.
Qed.

End FromInit.

(** ** The rate manager task *)





Section RateManagerTask.

Variable E : environ.
Variable a : init_args.
Variable now0 : Q.

Let cfg := init_config a.


End RateManagerTask.


Lemma unlimited_never_waits_witness :
  let a := with_rate_limit default_args None in
  let s := run_events aiorm (init_config a) (boot a 1)
             [Dispatch 0%nat; Throttle (Some "120"%string) 0; Dispatch 1%nat] in
  getters s !! 1%nat = Some (Acquired 1)
  /\ exists t, Acquired 1 = Acquired t.
Proof.
  split; [reflexivity|].
  apply (unlimited_never_waits aiorm (with_rate_limit default_args None) 1
           [Dispatch 0%nat; Throttle (Some "120"%string) 0; Dispatch 1%nat]
           1%nat (Acquired 1)); reflexivity.
Defined.

(** The bound on the rate is needed: an int rate limit that no float
    holds ends the task at its first refill, with the [OverflowError] of
    line 186. *)
Lemma rate_manager_overflow :
  let a := with_rate_limit default_args (Some (inject_Z (10 ^ 400))) in
  rate_manager (run_events aiorm (init_config a) (boot a 1)
                  [RunRateManager; Dispatch 0%nat; Tick 2; RunRateManager])
  = RmExited.
Proof.
  vm_compute. reflexivity.
Qed.

(** ** The penalty box and the refill *)

(** While the deadline lies ahead, a run of the rate manager changes
    nothing: no token is added, the event stays clear, nobody is woken.
    (The task is past its first run, where the bucket is filled before the
    deadline is looked at.) *)
Theorem penalty_blocks_refill (E : environ) (cfg : config) (s : system) (t : Q)
    (Hdeadline : retry_after_time (shared s) = Some t)
    (Htruthy : ~ (t == 0)%Q)
    (Hahead : (clock s < t)%Q)
    (Hrun : rate_manager s <> RmCreated) :
  shared (step E cfg s RunRateManager) = shared s
  /\ getters (step E cfg s RunRateManager) = getters s
  /\ clock (step E cfg s RunRateManager) = clock s.
Proof.
  assert (Hz : Qeq_bool t 0 = false).
  { apply not_true_is_false. intros Heq. now apply Qeq_bool_iff in Heq. }
  assert (Hle : Qle_bool t (clock s) = false).
  { apply not_true_is_false. intros Hle. apply Qle_bool_iff in Hle. lra. }
  assert (Htail : forall sleep now last,
            fst (loop_tail cfg (shared s) sleep now last) = shared s).
  { intros sleep now last. unfold loop_tail, refill.
    destruct (_token_queue (shared s)) as [q|]; [|reflexivity].
    rewrite Hdeadline. simpl. rewrite Hz. simpl.
    now rewrite orb_true_r. }
  assert (Hstep : fst (rate_manager_step cfg (clock s) (shared s) (rate_manager s))
                  = shared s).
  { destruct (rate_manager s) as [|sleep last|sleep now' last|]; simpl.
    - contradiction.
    - unfold loop_head. now rewrite Hdeadline, Hz, Hle.
    - apply Htail.
    - reflexivity. }
  simpl.
  destruct (rate_manager_step cfg (clock s) (shared s) (rate_manager s))
    as [m pc]. simpl in *. subst m.
  repeat split. now destruct (retry_after_event (shared s)).
Qed.

Lemma penalty_blocks_refill_witness :
  let cfg := init_config default_args in
  let s := run_events aiorm cfg (boot default_args 1)
             [RunRateManager; Dispatch 0%nat; Tick 2;
              Throttle (Some "5"%string) 0; Tick 4] in
  tokens s = 19
  /\ shared (step aiorm cfg s RunRateManager) = shared s
  /\ getters (step aiorm cfg s RunRateManager) = getters s
  /\ clock (step aiorm cfg s RunRateManager) = clock s.
Proof.
  split; [reflexivity|].
  apply (penalty_blocks_refill aiorm (init_config default_args) _ (2 + inject_Z 5)).
  - reflexivity.
  - vm_compute. discriminate.
  - reflexivity.
  - vm_compute. discriminate.
Defined.

(** ** Counting tokens *)

Lemma acquired_in_insert (g : gmap nat getter) (tid : nat) (x : getter) :
  (forall y, g !! tid = Some y -> is_acquired y = false) ->
  acquired_in (<[tid := x]> g)
  = (acquired_in g + if is_acquired x then 1 else 0)%nat.
Proof.
  intros Hold. unfold acquired_in.
  destruct (is_acquired x) eqn:Hx.
  - rewrite map_filter_insert_True by exact Hx.
    rewrite map_size_insert_None; [lia|].
    apply map_lookup_filter_None.
    destruct (g !! tid) as [y|] eqn:Hy; [right | now left].
    intros y' [= <-]. simpl. rewrite (Hold y eq_refl). discriminate.
  - rewrite map_filter_insert_not'; [lia | simpl; congruence |].
    intros y Hy. simpl. rewrite (Hold y Hy). discriminate.
Qed.


Lemma take_token_exact (m : state) :
  match take_token m with
  | Passed m' => bucket_tokens m' = bucket_tokens m - 1
  | _ => True
  end.
Proof.
  unfold take_token. destruct (_token_queue m) as [q|] eqn:Hq; [|exact I].
  destruct (items q) as [|x rest] eqn:Hitems; [exact I|].
  unfold bucket_tokens, qsize. simpl. rewrite Hq, Hitems. simpl. lia.
Qed.

Lemma enter_get_token_exact (E : environ) (cfg : config) (m : state) :
  truthy_float (rate_limit cfg) = true ->
  match enter_get_token E cfg m with
  | Passed m' => bucket_tokens m' = bucket_tokens m - 1
  | _ => True
  end.
Proof.
  intros Hrate. unfold enter_get_token. rewrite Hrate.
  destruct (truthy _ && int_eq _ _).
  - destruct (load_name (globals E) "MaximumRequestsExceeded"); try exact I;
      destruct (load_name (globals E) "self_requests"); exact I.
  - destruct (retry_after_event m); [apply take_token_exact | exact I].
Qed.

Lemma settle_conserves (s : system) (tid : nat) (g : gate) :
  (forall y, getters s !! tid = Some y -> is_acquired y = false) ->
  match g with
  | Passed m' => bucket_tokens m' = bucket_tokens (shared s) - 1
  | _ => True
  end ->
  acquisitions (settle s tid g) + tokens (settle s tid g)
  = acquisitions s + tokens s.
Proof.
  intros Hold Hg. unfold acquisitions, tokens. rewrite shared_settle.
  destruct g as [m'|e| |]; simpl; rewrite acquired_in_insert by exact Hold;
    simpl; lia.
Qed.

(** With a rate limit, every token handed out was in the bucket: a step of
    a request coroutine leaves the sum of tokens handed out and tokens in
    the bucket unchanged. *)
Lemma step_conserves (E : environ) (cfg : config) (s : system) (ev : event) :
  truthy_float (rate_limit cfg) = true ->
  is_run ev = false ->
  acquisitions (step E cfg s ev) + tokens (step E cfg s ev)
  = acquisitions s + tokens s.
Proof.
  intros Hrate Hev.
  destruct ev as [t| | |tid|tid|header utc]; try discriminate; simpl;
    try reflexivity.
  - now destruct (_rate_manager_task (shared s)).
  - destruct (getters s !! tid) eqn:Hg; [reflexivity|].
    set (m := set_requests (shared s) (_requests (shared s) + 1)).
    rewrite (settle_conserves (with_shared s m) tid).
    + reflexivity.
    + simpl. intros y Hy. congruence.
    + apply (enter_get_token_exact E cfg m Hrate).
  - destruct (getters s !! tid) as [[[|]| | |]|] eqn:Hg; try reflexivity;
      (apply settle_conserves;
       [intros y Hy; rewrite Hg in Hy; now injection Hy as <-
       | apply take_token_exact]).
  - destruct (throttle_penalty E cfg (shared s) (clock s) utc header)
      as [-> | (t & ->)]; reflexivity.
Qed.


(** Once the rate manager task has ended (cancelled by [close()], or never
    started), it stays ended; the bucket only drains, so that at most as
    many further calls return as there are tokens left and none when the
    bucket is empty; and a clear event is never set again: the callers that
    wait are not released. *)
Theorem exited_bucket_only_drains (E : environ) (cfg : config) (s : system)
    (trace : list event)
    (Hrate : truthy_float (rate_limit cfg) = true)
    (Hexited : rate_manager s = RmExited) :
  let s' := run_events E cfg s trace in
  rate_manager s' = RmExited
  /\ acquisitions s' + tokens s' = acquisitions s + tokens s
  /\ acquisitions s' <= acquisitions s + tokens s
  /\ (retry_after_event (shared s) = false ->
      retry_after_event (shared s') = false).
Proof.
  cbv zeta.
  assert (Hgen : rate_manager (run_events E cfg s trace) = RmExited
                 /\ acquisitions (run_events E cfg s trace)
                    + tokens (run_events E cfg s trace)
                    = acquisitions s + tokens s
                 /\ (retry_after_event (shared s) = false ->
                     retry_after_event (shared (run_events E cfg s trace)) = false)).
  { revert s Hexited. induction trace as [|ev trace IH]; intros s Hexited; simpl.
    - repeat split; auto.
    - assert (Hstep : rate_manager (step E cfg s ev) = RmExited
                      /\ acquisitions (step E cfg s ev) + tokens (step E cfg s ev)
                         = acquisitions s + tokens s
                      /\ (retry_after_event (shared s) = false ->
                          retry_after_event (shared (step E cfg s ev)) = false)).
      { destruct (is_run ev) eqn:Hrun.
        - destruct ev; try discriminate. unfold acquisitions, tokens. simpl.
          rewrite Hexited. simpl.
          rewrite andb_negb_l. repeat split; auto.
        - split; [|split; [now apply step_conserves|]].
          + destruct ev as [t| | |tid|tid|header utc]; try discriminate; simpl;
              try exact Hexited.
            * now destruct (_rate_manager_task (shared s)).
            * destruct (getters s !! tid); [exact Hexited|].
              now destruct (enter_get_token E cfg _).
            * destruct (getters s !! tid) as [[[|]| | |]|]; try exact Hexited;
                now destruct (take_token (shared s)).
          + intros Hclear.
            destruct ev as [t| | |tid|tid|header utc]; try discriminate; simpl;
              try exact Hclear.
            * now destruct (_rate_manager_task (shared s)).
            * destruct (getters s !! tid); [exact Hclear|].
              set (m := set_requests (shared s) (_requests (shared s) + 1)).
              rewrite shared_settle.
              pose proof (enter_get_token_drained E cfg m) as Hd.
              destruct (enter_get_token E cfg m); try exact Hclear.
              destruct Hd as (_ & _ & -> & _). exact Hclear.
            * pose proof (take_token_drained (shared s)) as Hd.
              destruct (getters s !! tid) as [[[|]| | |]|]; try exact Hclear;
                rewrite shared_settle;
                (destruct (take_token (shared s)); try exact Hclear;
                 destruct Hd as (_ & _ & -> & _); exact Hclear).
            * destruct (throttle_penalty E cfg (shared s) (clock s) utc header)
                as [-> | (t & ->)]; [exact Hclear | reflexivity]. }
      destruct Hstep as (Hpc & Hsum & Hev).
      destruct (IH _ Hpc) as (Hpc' & Hsum' & Hev').
      repeat split; [exact Hpc' | congruence | auto]. }
  destruct Hgen as (Hpc & Hsum & Hev).
  pose proof (bucket_tokens_nonneg (shared (run_events E cfg s trace))) as Hpos.
  unfold tokens in *. repeat split; auto; lia.
Qed.

Lemma exited_bucket_only_drains_witness :
  let cfg := init_config (with_burst default_args 2) in
  let s := run_events aiorm cfg (boot (with_burst default_args 2) 1)
             [RunRateManager; Dispatch 0%nat; CancelRateManager] in
  let s' := run_events aiorm cfg s
              [Dispatch 1%nat; Tick 100; RunRateManager; Dispatch 2%nat;
               Resume 2%nat] in
  getters s' !! 2%nat = Some WaitingQueue
  /\ rate_manager s' = RmExited
  /\ acquisitions s' + tokens s' = acquisitions s + tokens s
  /\ acquisitions s' <= acquisitions s + tokens s
  /\ (retry_after_event (shared s) = false ->
      retry_after_event (shared s') = false).
Proof.
  split; [reflexivity|].
  apply (exited_bucket_only_drains aiorm
           (init_config (with_burst default_args 2))
           (run_events aiorm (init_config (with_burst default_args 2))
              (boot (with_burst default_args 2) 1)
              [RunRateManager; Dispatch 0%nat; CancelRateManager])
           [Dispatch 1%nat; Tick 100; RunRateManager; Dispatch 2%nat;
            Resume 2%nat]); reflexivity.
Defined.

(** ** The rate bound *)











Section RateBound.

Variable E : environ.
Variable a : init_args.
Variable now0 : Q.

Let cfg := init_config a.


End RateBound.


(** ** The refill rule *)





(** ** The cold start *)

Lemma take_token_nonempty (m : state) :
  0 < bucket_tokens m ->
  exists m', take_token m = Passed m'
             /\ bucket_tokens m' = bucket_tokens m - 1
             /\ retry_after_event m' = retry_after_event m
             /\ is_Some (_token_queue m').
Proof.
  intros Hpos. unfold take_token, bucket_tokens, qsize in *.
  destruct (_token_queue m) as [q|] eqn:Hq; [|lia].
  destruct (items q) as [|x rest] eqn:Hitems; [simpl in Hpos; lia|].
  eexists. split; [reflexivity|]. simpl. repeat split; eauto. lia.
Qed.

Lemma take_token_empty (m : state) :
  is_Some (_token_queue m) -> bucket_tokens m = 0 -> take_token m = AtQueue.
Proof.
  intros [q Hq] Hzero. unfold take_token, bucket_tokens, qsize in *.
  rewrite Hq in *. destruct (items q); [reflexivity | simpl in Hzero; lia].
Qed.

Lemma start_fills (cfg : config) (m : state) (now : Q) (q : queue) :
  truthy_float (rate_limit cfg) = true ->
  _token_queue m = Some q -> items q = [] ->
  bucket_tokens (fst (start cfg m now)) = Z.max 0 (maxsize q)
  /\ (retry_after_event m = true ->
      retry_after_event (fst (start cfg m now)) = true).
Proof.
  intros Hrate Hq Hempty. unfold start. rewrite Hrate. simpl.
  assert (Hsleep : exists sleep, _sleep_duration cfg = Return sleep).
  { unfold _sleep_duration. destruct (rate_limit cfg) as [r|]; [|discriminate].
    simpl in Hrate. destruct (Qeq_bool r 0); [discriminate | eauto]. }
  destruct Hsleep as [sleep ->]. rewrite Hq.
  assert (Hzero : qsize q = 0) by (unfold qsize; now rewrite Hempty).
  destruct (put_range_fits (Z.to_nat (maxsize q)) 0 q)
    as (q' & Hput & Hmax & Hsize); [lia|].
  rewrite Hput.
  assert (Hfilled : within_capacity (set_queue m q')).
  { unfold within_capacity, bucket_tokens, bucket_capacity. simpl. lia. }
  destruct (loop_head_refilled cfg (set_queue m q') sleep now now Hfilled)
    as (Hin & Hcap & Htok & _ & Hpen).
  split.
  - unfold within_capacity in Hin. rewrite Hcap in Hin.
    assert (Hfull : bucket_tokens (set_queue m q') = qsize q') by reflexivity.
    assert (Hsame : bucket_capacity (set_queue m q') = maxsize q')
      by reflexivity.
    rewrite Hfull in Htok. rewrite Hsame in Hin. lia.
  - intros Hev. destruct Hpen as [[-> _] | (t & _ & _ & -> & _)];
      [exact Hev | reflexivity].
Qed.

Lemma run_events_snoc (E : environ) (cfg : config) (s : system)
    (trace : list event) (ev : event) :
  run_events E cfg s (trace ++ [ev]) = step E cfg (run_events E cfg s trace) ev.
Proof.
  unfold run_events. now rewrite fold_left_app.
Qed.

Section ColdStart.

Variable E : environ.
Variable a : init_args.
Variable now0 : Q.

Let cfg := init_config a.

Lemma cold_start_state (n : nat) :
  truthy_float (arg_rate_limit a) = true ->
  Z.of_nat n <= arg_rate_limit_burst a ->
  let s := run_events E cfg (boot a now0)
             (RunRateManager :: map Dispatch (seq 0 n)) in
  tokens s = arg_rate_limit_burst a - Z.of_nat n
  /\ retry_after_event (shared s) = true
  /\ clock s = now0
  /\ is_Some (_token_queue (shared s))
  /\ (forall i, (i < n)%nat -> getters s !! i = Some (Acquired now0))
  /\ (forall i, (n <= i)%nat -> getters s !! i = None).
Proof.
  intros Hrate. induction n as [|n IH]; intros Hn.
  - cbv zeta.
    change (run_events E cfg (boot a now0)
              (RunRateManager :: map Dispatch (seq 0 0)))
      with (step E cfg (boot a now0) RunRateManager).
    assert (Hboot : boot a now0
                    = {| shared := shared (boot a now0); clock := now0;
                         rate_manager := RmCreated; getters := ∅ |}).
    { unfold boot. now rewrite Hrate. }
    assert (Hq0 : _token_queue (shared (boot a now0))
                  = Some {| maxsize := arg_rate_limit_burst a; items := [] |}).
    { simpl. now rewrite Hrate. }
    assert (Hev0 : retry_after_event (shared (boot a now0)) = true)
      by reflexivity.
    rewrite Hboot. generalize dependent (shared (boot a now0)). intros m0 _ Hq0 Hev0.
    destruct (start_fills cfg m0 now0 _ Hrate Hq0 eq_refl) as [Htok Hev].
    pose proof (rate_manager_step_queue cfg now0 m0 RmCreated) as Hq.
    unfold tokens.
    cbn [step shared clock rate_manager getters rate_manager_step] in *.
    destruct (start cfg m0 now0) as [m pc] eqn:Hstart.
    cbn [fst shared clock getters] in *. rewrite Hev0. cbn [negb andb].
    split; [rewrite Htok; simpl maxsize; lia|].
    split; [now apply Hev|].
    split; [reflexivity|].
    split; [apply Hq; rewrite Hq0; eauto|].
    split; [intros i Hi; lia | intros i _; apply lookup_empty].
  - cbv zeta.
    assert (Htrace : RunRateManager :: map Dispatch (seq 0 (S n))
                     = (RunRateManager :: map Dispatch (seq 0 n))
                         ++ [Dispatch n]).
    { rewrite seq_S, map_app. reflexivity. }
    rewrite Htrace, run_events_snoc. clear Htrace.
    destruct IH as (Htok & Hev & Hclock & Hq & Hdone & Hfree); [lia|].
    set (s := run_events E cfg (boot a now0)
                (RunRateManager :: map Dispatch (seq 0 n))) in *.
    simpl. rewrite (Hfree n) by lia.
    set (m := set_requests (shared s) (_requests (shared s) + 1)).
    assert (Hgate : exists m', enter_get_token E cfg m = Passed m'
                               /\ bucket_tokens m' = bucket_tokens m - 1
                               /\ retry_after_event m' = true
                               /\ is_Some (_token_queue m')).
    { unfold cfg. rewrite get_token_without_ceiling by reflexivity.
      simpl. rewrite Hrate.
      change (retry_after_event m) with (retry_after_event (shared s)).
      rewrite Hev.
      destruct (take_token_nonempty m) as (m' & Hm' & Ht & He & Hq').
      { change (bucket_tokens m) with (tokens s). lia. }
      exists m'. repeat split; auto. now rewrite He. }
    destruct Hgate as (m' & -> & Ht & He & Hq').
    unfold tokens. simpl.
    repeat split; auto.
    + change (bucket_tokens m) with (tokens s) in Ht. lia.
    + intros i Hi. destruct (decide (i = n)) as [-> | Hne].
      * rewrite lookup_insert_eq. now rewrite Hclock.
      * rewrite lookup_insert_ne by congruence. apply Hdone. lia.
    + intros i Hi. rewrite lookup_insert_ne by lia. apply Hfree. lia.
Qed.

(** Right after construction the bucket is filled to the burst size: the
    first [burst] calls of [_get_token] return at once, without the clock
    moving, and the next one waits on the queue. *)
Theorem cold_start_burst (n : nat)
    (Hrate : truthy_float (arg_rate_limit a) = true)
    (Hburst : Z.of_nat n = arg_rate_limit_burst a) :
  let first := run_events E cfg (boot a now0)
                 (RunRateManager :: map Dispatch (seq 0 n)) in
  let next := step E cfg first (Dispatch n) in
  (forall i, (i < n)%nat -> getters first !! i = Some (Acquired now0))
  /\ tokens first = 0
  /\ getters next !! n = Some WaitingQueue.
Proof.
  cbv zeta.
  destruct (cold_start_state n Hrate) as (Htok & Hev & Hclock & Hq & Hdone & Hfree);
    [lia|].
  set (s := run_events E cfg (boot a now0)
              (RunRateManager :: map Dispatch (seq 0 n))) in *.
  split; [exact Hdone|]. split; [lia|].
  simpl. rewrite (Hfree n) by lia.
  set (m := set_requests (shared s) (_requests (shared s) + 1)).
  assert (Hgate : enter_get_token E cfg m = AtQueue).
  { unfold cfg. rewrite get_token_without_ceiling by reflexivity.
    simpl. rewrite Hrate.
    change (retry_after_event m) with (retry_after_event (shared s)).
    rewrite Hev. apply take_token_empty.
    - exact Hq.
    - change (bucket_tokens m) with (tokens s). lia. }
  rewrite Hgate. simpl. apply lookup_insert_eq.
Qed.

End ColdStart.

Lemma cold_start_burst_witness :
  let a := with_burst default_args 2 in
  let first := run_events aiorm (init_config a) (boot a 1)
                 [RunRateManager; Dispatch 0%nat; Dispatch 1%nat] in
  let next := step aiorm (init_config a) first (Dispatch 2%nat) in
  (forall i, (i < 2)%nat -> getters first !! i = Some (Acquired 1))
  /\ tokens first = 0
  /\ getters next !! 2%nat = Some WaitingQueue.
Proof.
  apply (cold_start_burst aiorm (with_burst default_args 2) 1 2); reflexivity.
Defined.

(** ** Leaving the penalty box *)

Lemma release_step (E : environ) (cfg : config) (s : system)
    (sleep : option Q) (last t : Q) :
  rate_manager s = RmSleeping sleep last ->
  retry_after_time (shared s) = Some t ->
  ~ (t == 0)%Q ->
  (t <= clock s)%Q ->
  retry_after_event (shared s) = false ->
  let s' := step E cfg s RunRateManager in
  retry_after_event (shared s') = true
  /\ retry_after_time (shared s') = None
  /\ getters s' = wake_waiter <$> getters s.
Proof.
  intros Hpc Hdeadline Htruthy Hpassed Hclear.
  assert (Hz : Qeq_bool t 0 = false).
  { apply not_true_is_false. intros Heq. now apply Qeq_bool_iff in Heq. }
  assert (Hle : Qle_bool t (clock s) = true) by now apply Qle_bool_iff.
  cbv zeta. cbn [step]. rewrite Hpc. cbn [rate_manager_step].
  unfold loop_head. rewrite Hdeadline, Hz, Hle. cbn [negb].
  destruct (loop_tail_penalty cfg (set_penalty (shared s) true None) sleep
              (clock s) last) as [Hev Htime].
  destruct (loop_tail cfg (set_penalty (shared s) true None) sleep (clock s) last)
    as [m pc].
  cbn [fst shared getters] in *. rewrite Hclear, Hev. simpl.
  split; [reflexivity|]. split; [exact Htime | reflexivity].
Qed.

Lemma idle_step (E : environ) (cfg : config) (s : system) :
  retry_after_event (shared s) = true ->
  retry_after_time (shared s) = None ->
  let s' := step E cfg s RunRateManager in
  retry_after_event (shared s') = true
  /\ retry_after_time (shared s') = None
  /\ getters s' = getters s.
Proof.
  intros Hset Hnone. cbv zeta. cbn [step].
  pose proof (rate_manager_step_always_released cfg (clock s) (shared s)
                (rate_manager s)) as Hrel.
  destruct (rate_manager_step cfg (clock s) (shared s) (rate_manager s))
    as [m pc].
  cbn [fst shared getters] in *. rewrite Hset. cbn [negb andb].
  destruct Hrel as [[Hev Htime] | (t & Habs & _)]; [|congruence].
  split; [congruence|]. split; [congruence | reflexivity].
Qed.

(** Once the deadline of a 429 has passed, two runs of the rate manager
    task are enough to set the event again, erase the deadline and wake
    every caller that waits on the event: one run when the task sleeps in
    its loop, one more when it sleeps out the penalty. *)
Theorem penalty_lifted (E : environ) (cfg : config) (s : system) (t : Q)
    (Hqueue : is_Some (_token_queue (shared s)))
    (Halive : rate_manager s <> RmCreated /\ rate_manager s <> RmExited)
    (Hdeadline : retry_after_time (shared s) = Some t)
    (Htruthy : ~ (t == 0)%Q)
    (Hpassed : (t <= clock s)%Q)
    (Hclear : retry_after_event (shared s) = false) :
  let s' := run_events E cfg s [RunRateManager; RunRateManager] in
  retry_after_event (shared s') = true
  /\ retry_after_time (shared s') = None
  /\ forall tid w, getters s !! tid = Some (WaitingEvent w) ->
                   getters s' !! tid = Some (WaitingEvent true).
Proof.
  cbv zeta. change (run_events E cfg s [RunRateManager; RunRateManager])
    with (step E cfg (step E cfg s RunRateManager) RunRateManager).
  destruct Halive as [Hcreated Hexited].
  destruct (rate_manager s) as [|sleep last|sleep now' last|] eqn:Hpc;
    try contradiction.
  - destruct (release_step E cfg s sleep last t Hpc Hdeadline Htruthy Hpassed
                Hclear) as (Hev & Htime & Hget).
    destruct (idle_step E cfg (step E cfg s RunRateManager) Hev Htime)
      as (Hev' & Htime' & Hget').
    split; [exact Hev'|]. split; [exact Htime'|].
    intros tid w Hw. rewrite Hget', Hget, lookup_fmap, Hw. reflexivity.
  - assert (Hz : Qeq_bool t 0 = false).
    { apply not_true_is_false. intros Heq. now apply Qeq_bool_iff in Heq. }
    assert (Hfirst : step E cfg s RunRateManager
                     = {| shared := shared s; clock := clock s;
                          rate_manager := RmSleeping sleep now';
                          getters := getters s |}).
    { cbn [step]. rewrite Hpc. cbn [rate_manager_step].
      destruct Hqueue as [q Hq].
      unfold loop_tail, refill. rewrite Hq, Hdeadline.
      cbn [truthy_float]. rewrite Hz. cbn [negb]. rewrite orb_true_r.
      cbn [negb]. rewrite Hclear. reflexivity. }
    rewrite Hfirst.
    destruct (release_step E cfg
                {| shared := shared s; clock := clock s;
                   rate_manager := RmSleeping sleep now';
                   getters := getters s |} sleep now' t eq_refl Hdeadline
                Htruthy Hpassed Hclear) as (Hev & Htime & Hget).
    split; [exact Hev|]. split; [exact Htime|].
    intros tid w Hw. rewrite Hget. cbn [getters].
    rewrite lookup_fmap, Hw. reflexivity.
Qed.

Lemma penalty_lifted_witness :
  let cfg := init_config default_args in
  let s := run_events aiorm cfg (boot default_args 1)
             [RunRateManager; Throttle (Some "5"%string) 0; Dispatch 0%nat;
              Tick 4; RunRateManager; Tick 7] in
  let s' := run_events aiorm cfg s [RunRateManager; RunRateManager] in
  getters s !! 0%nat = Some (WaitingEvent false)
  /\ retry_after_event (shared s') = true
  /\ retry_after_time (shared s') = None
  /\ forall tid w, getters s !! tid = Some (WaitingEvent w) ->
                   getters s' !! tid = Some (WaitingEvent true).
Proof.
  split; [reflexivity|].
  apply (penalty_lifted aiorm (init_config default_args) _ (1 + inject_Z 5)).
  - vm_compute. eauto.
  - split; vm_compute; discriminate.
  - reflexivity.
  - vm_compute. discriminate.
  - vm_compute. discriminate.
  - reflexivity.
Defined.

(** ** A date in the header *)

Lemma load_name_bound (gl : list string) (name : string) :
  In name gl -> load_name gl name = Return tt.
Proof.
  intros Hin. unfold load_name.
  destruct (existsb (String.eqb name) gl) eqn:Hex; [reflexivity|].
  assert (Habs : existsb (String.eqb name) gl = true).
  { apply existsb_exists. exists name. split; [exact Hin|].
    apply String.eqb_refl. }
  congruence.
Qed.

(** In a namespace that binds [parser], [datetime] and [timezone], a header
    that is no integer but a date with a time zone yields the seconds field
    of the difference to the current time: a number from 0 to 86399, the
    whole seconds to wait when the date is less than a day ahead, and the
    rest modulo one day otherwise (a date in the past, or further ahead). *)
Theorem parse_retry_after_date (E : environ) (cfg : config) (utcnow : Q)
    (s : string) (date : Q)
    (Hparser : In "parser"%string (globals E))
    (Hdatetime : In "datetime"%string (globals E))
    (Htimezone : In "timezone"%string (globals E))
    (Hliteral : int_of_string s = None)
    (Hdate : parser_parse E s = ParsedAware date) :
  exists n,
    _parse_retry_after E cfg utcnow (VStr s) = Return (VInt n)
    /\ 0 <= n < 86400
    /\ (n - Qfloor (date - utcnow)) mod 86400 = 0
    /\ ((0 <= date - utcnow)%Q -> (date - utcnow < 86400)%Q ->
        n = Qfloor (date - utcnow)).
Proof.
  exists (timedelta_seconds (date - utcnow)).
  split.
  { unfold _parse_retry_after. cbn [int]. rewrite Hliteral.
    rewrite (load_name_bound _ _ Hparser), Hdate.
    rewrite (load_name_bound _ _ Hdatetime), (load_name_bound _ _ Htimezone).
    reflexivity. }
  unfold timedelta_seconds. split; [apply Z.mod_pos_bound; lia|].
  split.
  { rewrite Zminus_mod, Z.mod_mod, Z.sub_diag by lia. reflexivity. }
  intros Hlow Hhigh. apply Z.mod_small. split.
  - change 0 with (Qfloor 0). now apply Qfloor_resp_le.
  - assert (Hfloor : (inject_Z (Qfloor (date - utcnow)) <= date - utcnow)%Q)
      by apply Qfloor_le.
    assert (Hlt : (inject_Z (Qfloor (date - utcnow)) < inject_Z 86400)%Q).
    { eapply Qle_lt_trans; [exact Hfloor | exact Hhigh]. }
    now rewrite <- Zlt_Qlt in Hlt.
Qed.

Lemma parse_retry_after_date_witness :
  let E := {| globals := "parser" :: "datetime" :: "timezone" :: module_globals;
              parser_parse := fun _ => ParsedAware 1000 |}%string in
  exists n,
    _parse_retry_after E (init_config default_args) 1010 (VStr "a date")
    = Return (VInt n)
    /\ 0 <= n < 86400
    /\ (n - Qfloor (1000 - 1010)) mod 86400 = 0
    /\ ((0 <= 1000 - 1010)%Q -> (1000 - 1010 < 86400)%Q ->
        n = Qfloor (1000 - 1010)).
Proof.
  apply (parse_retry_after_date
           {| globals := "parser" :: "datetime" :: "timezone" :: module_globals;
              parser_parse := fun _ => ParsedAware 1000 |}%string
           (init_config default_args) 1010 "a date" 1000).
  - simpl. tauto.
  - simpl. tauto.
  - simpl. tauto.
  - reflexivity.
  - reflexivity.
Defined.
